(** * gotelnet: a shallow embedding of the TCP relay client

    The repository holds three revisions of one program ([main.go]):

    - the skeleton (parse, connect, report) ............ module [Skeleton]
    - the relay built on [bufio] and [os.Exit] ......... module [Buffered]
    - the relay built on [sync.Once] and a channel ..... module [Signalled]

    [parseArgs] and [connect] are the same text in the three revisions and
    are embedded once.  Everything outside the program (the network, the
    terminal, the integer syntax of the [flag] package) is gathered in the
    record [Env]; goroutine scheduling is an explicit list of thread
    identifiers, and every theorem about a relay quantifies over all of
    them. *)

From Stdlib Require Import List ZArith String Ascii Bool Lia Arith PeanoNat.
From Stdlib Require Import Strings.Byte DecimalString.
Import ListNotations.

Local Open Scope string_scope.
Local Open Scope Z_scope.
Local Open Scope list_scope.

(** ** Bytes and errors *)

Definition bytes := list Byte.byte.

(** The line feed, which no string literal can hold. *)
Definition nl : string := String (ascii_of_nat 10) EmptyString.

Definition bytes_of (s : string) : bytes := list_byte_of_string s.

(** Go [error] values, as far as the program tells them apart: it compares
    with [io.EOF] and otherwise only with [nil]. *)
Inductive error : Type :=
| EOF
| ErrSyntax (input : string)
| ErrRange (input : string)
| ErrClosed
| ErrShortWrite
| ErrIO (msg : string)
| Errorf (msg : string)
| Wrapf (msg : string) (cause : error).

Definition is_EOF (e : option error) : bool :=
  match e with
  | Some EOF => true
  | _ => false
  end.

Definition is_err (e : option error) : bool :=
  match e with
  | Some _ => true
  | None => false
  end.

(** What a function that may also end the process hands back: a value, a Go
    error, or the exit status of the process it terminated. *)
Inductive outcome (A : Type) : Type :=
| Ok (a : A)
| Err (e : error)
| Exit (code : Z).
Arguments Ok {A} a.
Arguments Err {A} e.
Arguments Exit {A} code.

(** ** Machine integers *)

Definition min_int : Z := - 2 ^ 63.
Definition max_int : Z := 2 ^ 63 - 1.

(** Two's complement wrap-around of a 64-bit signed product or sum. *)
Definition wrap64 (z : Z) : Z := (z + 2 ^ 63) mod 2 ^ 64 - 2 ^ 63.

Definition itoa (z : Z) : string := NilZero.string_of_int (Z.to_int z).

(** ** strconv *)

Module Strconv.

Definition digit (c : ascii) : option Z :=
  let n := Z.of_nat (nat_of_ascii c) in
  if (48 <=? n) && (n <=? 57) then Some (n - 48) else None.

Fixpoint digits (s : string) (acc : Z) : option Z :=
  match s with
  | EmptyString => Some acc
  | String c s' =>
      match digit c with
      | Some d => digits s' (acc * 10 + d)
      | None => None
      end
  end.

(** [strconv.Atoi]: an optional sign, then one or more decimal digits and
    nothing else; a value that does not fit [int] is a range error. *)
Definition Atoi (s : string) : error + Z :=
  match s with
  | EmptyString => inl (ErrSyntax s)
  | String c rest =>
      let neg := Ascii.eqb c "-" in
      let body := if neg || Ascii.eqb c "+" then rest else s in
      match body with
      | EmptyString => inl (ErrSyntax s)
      | _ =>
          match digits body 0 with
          | None => inl (ErrSyntax s)
          | Some n =>
              let v := if neg then - n else n in
              if (min_int <=? v) && (v <=? max_int) then inr v
              else inl (ErrRange s)
          end
      end
  end.

End Strconv.

(** ** The environment *)

(** One result of a [Read] call: the bytes delivered and the error returned
    with them. *)
Record rd : Type := mkRd { rd_data : bytes; rd_err : option error }.

(** Everything the program does not decide itself.
    - [intSyntax] is [strconv.ParseInt(s, 0, strconv.IntSize)], with which the
      [flag] package reads the value of an integer flag;
    - [dial] is the outcome of [Dialer.Dial], given the address and the bound
      on the connect phase ([None]: no bound);
    - [conn_in] and [stdin_in] are the successive results of [Read] on the
      connection and on standard input; a [Read] past the end of the list
      never returns;
    - [stdout_res k] and [conn_res k] are the errors of the [k]-th [Write] on
      standard output and on the connection. *)
Record Env : Type := mkEnv {
  intSyntax : string -> option Z;
  dial : string -> option Z -> option error;
  conn_in : list rd;
  stdin_in : list rd;
  stdout_res : nat -> option error;
  conn_res : nat -> option error
}.

(** ** flag *)

Module Flag.

Inductive token : Type :=
| NonFlag
| Terminator
| BadSyntax
| Named (name : string) (value : option string).

(** [name=value], the [=] not in first place. *)
Definition splitEq (name : string) : string * option string :=
  match name with
  | EmptyString => (name, None)
  | String c tl =>
      match index 0 "=" tl with
      | Some i =>
          (String c (substring 0 i tl),
           Some (substring (S i) (String.length tl - S i) tl))
      | None => (name, None)
      end
  end.

(** The head of [FlagSet.parseOne]: what kind of argument [s] is. *)
Definition classify (s : string) : token :=
  match s with
  | String c0 (String c1 tl as s1) =>
      if negb (Ascii.eqb c0 "-") then NonFlag
      else if Ascii.eqb c1 "-" && String.eqb tl "" then Terminator
      else
        let name := if Ascii.eqb c1 "-" then tl else s1 in
        match name with
        | EmptyString => BadSyntax
        | String n0 _ =>
            if Ascii.eqb n0 "-" || Ascii.eqb n0 "=" then BadSyntax
            else let (nm, v) := splitEq name in Named nm v
        end
  | _ => NonFlag
  end.

Inductive parsed : Type :=
| Parsed (timeout : Z) (args : list string)
| Failed
| Help.

(** [FlagSet.Parse] for a flag set whose only flag is the integer flag
    [timeout]; [timeout] is the current value of the flag's variable. *)
Fixpoint Parse (E : Env) (timeout : Z) (arguments : list string) : parsed :=
  match arguments with
  | [] => Parsed timeout []
  | s :: rest =>
      match classify s with
      | NonFlag => Parsed timeout arguments
      | Terminator => Parsed timeout rest
      | BadSyntax => Failed
      | Named name value =>
          if String.eqb name "timeout" then
            match value with
            | Some v =>
                match intSyntax E v with
                | Some t => Parse E t rest
                | None => Failed
                end
            | None =>
                match rest with
                | v :: rest' =>
                    match intSyntax E v with
                    | Some t => Parse E t rest'
                    | None => Failed
                    end
                | [] => Failed
                end
            end
          else if String.eqb name "help" || String.eqb name "h" then Help
          else Failed
      end
  end.

End Flag.

(** ** Config, parseArgs, connect *)

Record Config : Type := mkConfig {
  Host : string;
  Port : Z;
  Timeout : Z
}.

(** [parseArgs]; [argv] is [os.Args[1:]].  The command-line flag set exits
    on error: status 0 after [-h]/[-help], status 2 otherwise. *)
Definition parseArgs (E : Env) (argv : list string) : outcome Config :=
  match Flag.Parse E 10 argv with
  | Flag.Help => Exit 0
  | Flag.Failed => Exit 2
  | Flag.Parsed timeout args =>
      match args with
      | [host; portStr] =>
          match Strconv.Atoi portStr with
          | inl err => Err (Wrapf "invalid port number" err)
          | inr port =>
              if (port <? 1) || (port >? 65535)
              then Err (Errorf "port must be between 1 and 65535")
              else Ok {| Host := host; Port := port; Timeout := timeout |}
          end
      | _ => Err (Errorf "expected exactly 2 positional arguments: <host> <port>")
      end
  end.

(** [time.Second], in nanoseconds. *)
Definition Second : Z := 1000000000.

Record Dialer : Type := mkDialer { DialTimeout : Z }.

(** [net.Dialer]: a zero [Timeout] means no timeout. *)
Definition bound (d : Dialer) : option Z :=
  if DialTimeout d =? 0 then None else Some (DialTimeout d).

Definition dialer_of (cfg : Config) : Dialer :=
  {| DialTimeout := wrap64 (Timeout cfg * Second) |}.

Definition address_of (cfg : Config) : string :=
  (Host cfg ++ ":" ++ itoa (Port cfg))%string.

(** [connect]: the connection itself is the pair of scripts [conn_in],
    [conn_res] of the environment, so success carries no value. *)
Definition connect (E : Env) (cfg : Config) : option error :=
  let dialer := dialer_of cfg in
  let address := address_of cfg in
  match dial E address (bound dialer) with
  | Some err => Some (Wrapf ("failed to connect to " ++ address)%string err)
  | None => None
  end.

(** ** The process and its streams *)

(** What is written to the error stream. *)
Inductive diag : Type :=
| DiagUsage
| DiagError (e : error)
| DiagConnected.

(** The observable side of a run: the arguments of the successive [Write]
    calls on standard output and on the connection (oldest first), the
    diagnostics, the dial attempts, the number of [conn.Close] calls, and the
    exit status once the process has ended. *)
Record process : Type := mkProcess {
  stdout : list bytes;
  stderr : list diag;
  dials : list (string * option Z);
  conn_out : list bytes;
  closes : nat;
  status : option Z
}.

Definition fresh : process :=
  {| stdout := []; stderr := []; dials := []; conn_out := [];
     closes := 0; status := None |}.

Definition set_status (c : Z) (p : process) : process :=
  {| stdout := stdout p; stderr := stderr p; dials := dials p;
     conn_out := conn_out p; closes := closes p; status := Some c |}.

Definition log (d : diag) (p : process) : process :=
  {| stdout := stdout p; stderr := stderr p ++ [d]; dials := dials p;
     conn_out := conn_out p; closes := closes p; status := status p |}.

Definition note_dial (a : string) (t : option Z) (p : process) : process :=
  {| stdout := stdout p; stderr := stderr p; dials := dials p ++ [(a, t)];
     conn_out := conn_out p; closes := closes p; status := status p |}.

(** The process once [connect] has dialled for [cfg]. *)
Definition dialled (cfg : Config) (p : process) : process :=
  note_dial (address_of cfg) (bound (dialer_of cfg)) p.

(** [conn.Close()]; a second call only returns an error, which the program
    never looks at. *)
Definition close_conn (p : process) : process :=
  {| stdout := stdout p; stderr := stderr p; dials := dials p;
     conn_out := conn_out p; closes := S (closes p); status := status p |}.

Definition conn_closed (p : process) : bool := negb (closes p =? 0)%nat.

Definition exited (p : process) : bool :=
  match status p with
  | Some _ => true
  | None => false
  end.

(** [os.Stdout.Write(data)]. *)
Definition write_stdout (E : Env) (data : bytes) (p : process)
  : process * option error :=
  ({| stdout := stdout p ++ [data]; stderr := stderr p; dials := dials p;
      conn_out := conn_out p; closes := closes p; status := status p |},
   stdout_res E (List.length (stdout p))).

(** [conn.Write(data)]. *)
Definition write_conn (E : Env) (data : bytes) (p : process)
  : process * option error :=
  ({| stdout := stdout p; stderr := stderr p; dials := dials p;
      conn_out := conn_out p ++ [data]; closes := closes p;
      status := status p |},
   if conn_closed p then Some ErrClosed
   else conn_res E (List.length (conn_out p))).

(** [conn.Read]: the next scripted result and the position after it; on a
    closed connection an error at once; [None] while the call blocks. *)
Definition read_conn (E : Env) (p : process) (pos : nat) : option (rd * nat) :=
  if conn_closed p then Some (mkRd [] (Some ErrClosed), pos)
  else
    match nth_error (conn_in E) pos with
    | Some r => Some (r, S pos)
    | None => None
    end.

(** [os.Stdin.Read]. *)
Definition read_stdin (E : Env) (pos : nat) : option (rd * nat) :=
  match nth_error (stdin_in E) pos with
  | Some r => Some (r, S pos)
  | None => None
  end.

(** [make([]byte, 1024)]. *)
Definition bufSize : nat := 1024.
Definition make_buf : bytes := repeat Byte.x00 bufSize.

(** A [Read] stores its bytes at the front of the buffer and reports how
    many there are; it never stores more than the buffer holds. *)
Definition read_into (buf : bytes) (r : rd) : bytes * nat :=
  let n := Nat.min (List.length (rd_data r)) (List.length buf) in
  (firstn n (rd_data r) ++ skipn n buf, n).

(** [fmt.Printf("Config: %+v\n", cfg)] for a [*Config]. *)
Definition show_config (cfg : Config) : string :=
  ("Config: &{Host:" ++ Host cfg ++ " Port:" ++ itoa (Port cfg)
   ++ " Timeout:" ++ itoa (Timeout cfg) ++ "}" ++ nl)%string.

(** The process after [fmt.Printf("Config: %+v\n", cfg)], first statement
    of [main] after the parse in the two older revisions. *)
Definition printed (E : Env) (cfg : Config) : process :=
  fst (write_stdout E (bytes_of (show_config cfg)) fresh).

(** Threads of a relay, as the scheduler names them. *)
Inductive tid : Type := TIn | TOut | TMain.

(** ** The relay with a shutdown signal (main.go, second revision) *)

Module Signalled.

(** Where a copying goroutine stands. *)
Inductive gpc : Type :=
| AtRead
| AtWrite (n : nat) (err : option error)
| AtCloseDone
| Returned.

(** Where [startIO] and then [main] stand. *)
Inductive mpc : Type :=
| AtWait
| AtClose
| AtDefer
| MainReturned.

Record dir : Type := mkDir { pc : gpc; pos : nat; buf : bytes }.

(** [done] and [once]: whether [once] has run its function, whether the
    channel is closed, how often [close(done)] went through, and whether it
    was ever applied to a closed channel (which panics). *)
Record signal : Type := mkSignal {
  once_done : bool;
  done_closed : bool;
  fired : nat;
  panicked : bool
}.

Record state : Type := mkState {
  inb : dir;
  outb : dir;
  sig : signal;
  main_pc : mpc;
  io : process
}.

(** [close(done)]. *)
Definition close_chan (g : signal) : signal :=
  if done_closed g
  then {| once_done := once_done g; done_closed := true;
          fired := fired g; panicked := true |}
  else {| once_done := once_done g; done_closed := true;
          fired := S (fired g); panicked := panicked g |}.

(** [closeDone]: [once.Do(func() { close(done) })]. *)
Definition closeDone (g : signal) : signal :=
  if once_done g then g
  else
    let g' := close_chan g in
    {| once_done := true; done_closed := done_closed g';
       fired := fired g'; panicked := panicked g' |}.

(** After the data branch: [if err != nil { closeDone(); return }]. *)
Definition after_in (err : option error) : gpc :=
  if is_err err then AtCloseDone else AtRead.

(** After the data branch of the outbound loop, which tests [io.EOF] first
    and any other error next. *)
Definition after_out (err : option error) : gpc :=
  if is_EOF err then AtCloseDone
  else if is_err err then AtCloseDone
  else AtRead.

(** One step of the goroutine that copies the connection to standard
    output. *)
Definition step_in (E : Env) (s : state) : state :=
  let d := inb s in
  match pc d with
  | AtRead =>
      match read_conn E (io s) (pos d) with
      | None => s
      | Some (r, pos') =>
          let (buf', n) := read_into (buf d) r in
          let pc' := if (0 <? n)%nat then AtWrite n (rd_err r)
                     else after_in (rd_err r) in
          {| inb := {| pc := pc'; pos := pos'; buf := buf' |};
             outb := outb s; sig := sig s; main_pc := main_pc s; io := io s |}
      end
  | AtWrite n err =>
      let (p', writeErr) := write_stdout E (firstn n (buf d)) (io s) in
      let pc' := if is_err writeErr then AtCloseDone else after_in err in
      {| inb := {| pc := pc'; pos := pos d; buf := buf d |};
         outb := outb s; sig := sig s; main_pc := main_pc s; io := p' |}
  | AtCloseDone =>
      {| inb := {| pc := Returned; pos := pos d; buf := buf d |};
         outb := outb s; sig := closeDone (sig s); main_pc := main_pc s;
         io := io s |}
  | Returned => s
  end.

(** One step of the goroutine that copies standard input to the
    connection. *)
Definition step_out (E : Env) (s : state) : state :=
  let d := outb s in
  match pc d with
  | AtRead =>
      match read_stdin E (pos d) with
      | None => s
      | Some (r, pos') =>
          let (buf', n) := read_into (buf d) r in
          let pc' := if (0 <? n)%nat then AtWrite n (rd_err r)
                     else after_out (rd_err r) in
          {| inb := inb s;
             outb := {| pc := pc'; pos := pos'; buf := buf' |};
             sig := sig s; main_pc := main_pc s; io := io s |}
      end
  | AtWrite n err =>
      let (p', writeErr) := write_conn E (firstn n (buf d)) (io s) in
      let pc' := if is_err writeErr then AtCloseDone else after_out err in
      {| inb := inb s;
         outb := {| pc := pc'; pos := pos d; buf := buf d |};
         sig := sig s; main_pc := main_pc s; io := p' |}
  | AtCloseDone =>
      {| inb := inb s;
         outb := {| pc := Returned; pos := pos d; buf := buf d |};
         sig := closeDone (sig s); main_pc := main_pc s; io := io s |}
  | Returned => s
  end.

(** One step of the main goroutine: [<-done], [conn.Close()], return to
    [main], whose deferred [conn.Close()] runs before the process ends with
    status 0. *)
Definition step_main (s : state) : state :=
  match main_pc s with
  | AtWait =>
      if done_closed (sig s)
      then {| inb := inb s; outb := outb s; sig := sig s;
              main_pc := AtClose; io := io s |}
      else s
  | AtClose =>
      {| inb := inb s; outb := outb s; sig := sig s;
         main_pc := AtDefer; io := close_conn (io s) |}
  | AtDefer =>
      {| inb := inb s; outb := outb s; sig := sig s;
         main_pc := MainReturned; io := set_status 0 (close_conn (io s)) |}
  | MainReturned => s
  end.

(** A panic ends the process with status 2. *)
Definition crash (s : state) : state :=
  if panicked (sig s)
  then {| inb := inb s; outb := outb s; sig := sig s;
          main_pc := main_pc s; io := set_status 2 (io s) |}
  else s.

(** The scheduler lets thread [t] take one step; nothing moves once the
    process has ended. *)
Definition step (E : Env) (t : tid) (s : state) : state :=
  if exited (io s) then s
  else
    match t with
    | TIn => crash (step_in E s)
    | TOut => crash (step_out E s)
    | TMain => step_main s
    end.

Definition run (E : Env) (sched : list tid) (s : state) : state :=
  fold_left (fun s t => step E t s) sched s.

(** The state in which [startIO] starts its two goroutines. *)
Definition init (p : process) : state :=
  {| inb := {| pc := AtRead; pos := 0; buf := make_buf |};
     outb := {| pc := AtRead; pos := 0; buf := make_buf |};
     sig := {| once_done := false; done_closed := false;
               fired := 0; panicked := false |};
     main_pc := AtWait;
     io := p |}.

(** [startIO] followed by the tail of [main], under schedule [sched]. *)
Definition startIO (E : Env) (sched : list tid) (p : process) : state :=
  run E sched (init p).

(** The process as [main] hands it to [startIO]: nothing written yet. *)
Definition entry (cfg : Config) : process := dialled cfg fresh.

(** [main]. *)
Definition main (E : Env) (argv : list string) (sched : list tid) : process :=
  match parseArgs E argv with
  | Exit c => set_status c (log DiagUsage fresh)
  | Err err => set_status 1 (log (DiagError err) fresh)
  | Ok cfg =>
      match connect E cfg with
      | Some err => set_status 1 (log (DiagError err) (dialled cfg fresh))
      | None => io (startIO E sched (entry cfg))
      end
  end.

End Signalled.

(** ** bufio *)

Module Bufio.

Definition defaultBufSize : nat := 4096.

(** A [bufio.Reader]: the bytes read from the source and not yet handed
    out, and the error the source returned with them. *)
Record Reader : Type := mkReader { rbuf : bytes; rerr : option error }.

(** A [bufio.Writer]: the bytes accepted and not yet written, and the first
    error of the destination. *)
Record Writer : Type := mkWriter { wbuf : bytes; werr : option error }.

Definition NewReader : Reader := {| rbuf := []; rerr := None |}.
Definition NewWriter : Writer := {| wbuf := []; werr := None |}.

(** [Reader.Read(p)] for a [p] of [plen] bytes, shorter than the internal
    buffer.  [next] is what one [Read] of the source would return, with the
    position after it ([None]: it blocks); the result is the new reader, the
    new position and what the caller gets. *)
Definition Read (b : Reader) (plen : nat) (pos : nat) (next : option (rd * nat))
  : option (Reader * nat * rd) :=
  match rbuf b with
  | [] =>
      match rerr b with
      | Some e => Some ({| rbuf := []; rerr := None |}, pos, mkRd [] (Some e))
      | None =>
          match next with
          | None => None
          | Some (r, pos') =>
              let data := firstn defaultBufSize (rd_data r) in
              match data with
              | [] => Some ({| rbuf := []; rerr := None |}, pos',
                            mkRd [] (rd_err r))
              | _ => Some ({| rbuf := skipn plen data; rerr := rd_err r |},
                           pos', mkRd (firstn plen data) None)
              end
          end
      end
  | _ :: _ =>
      Some ({| rbuf := skipn plen (rbuf b); rerr := rerr b |}, pos,
            mkRd (firstn plen (rbuf b)) None)
  end.

Definition Available (b : Writer) : nat :=
  defaultBufSize - List.length (wbuf b).

(** [Writer.Flush]. *)
Definition Flush (E : Env) (b : Writer) (p : process)
  : Writer * process * option error :=
  match werr b with
  | Some e => (b, p, Some e)
  | None =>
      match wbuf b with
      | [] => (b, p, None)
      | _ :: _ =>
          let (p', e) := write_conn E (wbuf b) p in
          match e with
          | Some _ => ({| wbuf := wbuf b; werr := e |}, p', e)
          | None => ({| wbuf := []; werr := None |}, p', None)
          end
      end
  end.

(** A write that goes around the buffer. *)
Definition direct (E : Env) (data : bytes) (p : process)
  : Writer * process * option error :=
  let (p', e) := write_conn E data p in
  ({| wbuf := []; werr := e |}, p', e).

(** [Writer.Write(data)]: into the buffer when it fits; otherwise straight
    to the destination from an empty buffer, or fill, flush and go on with
    the rest. *)
Definition Write (E : Env) (b : Writer) (data : bytes) (p : process)
  : Writer * process * option error :=
  match werr b with
  | Some e => (b, p, Some e)
  | None =>
      if (List.length data <=? Available b)%nat
      then ({| wbuf := wbuf b ++ data; werr := None |}, p, None)
      else if (List.length (wbuf b) =? 0)%nat then direct E data p
      else
        let n := Available b in
        let '(b1, p1, e1) :=
          Flush E {| wbuf := wbuf b ++ firstn n data; werr := None |} p in
        match e1 with
        | Some _ => (b1, p1, e1)
        | None =>
            let rest := skipn n data in
            if (List.length rest <=? defaultBufSize)%nat
            then ({| wbuf := rest; werr := None |}, p1, None)
            else direct E rest p1
        end
  end.

End Bufio.

(** ** The relay on bufio and os.Exit (main.go, first revision) *)

Module Buffered.

(** Where the goroutine copying the connection to standard output
    stands. *)
Inductive ipc : Type :=
| InRead
| InWrite (n : nat) (err : option error)
| InExit.

(** Where the main goroutine, copying standard input to the connection,
    stands. *)
Inductive opc : Type :=
| OutRead
| OutWrite (n : nat) (err : option error)
| OutFlush (err : option error)
| OutClose
| OutExit.

Record state : Type := mkState {
  in_pc : ipc;
  in_pos : nat;
  in_buf : bytes;
  reader : Bufio.Reader;
  out_pc : opc;
  out_pos : nat;
  out_buf : bytes;
  stdinReader : Bufio.Reader;
  writer : Bufio.Writer;
  io : process
}.

Definition with_in (s : state) (c : ipc) (n : nat) (b : bytes)
  (r : Bufio.Reader) (p : process) : state :=
  {| in_pc := c; in_pos := n; in_buf := b; reader := r;
     out_pc := out_pc s; out_pos := out_pos s; out_buf := out_buf s;
     stdinReader := stdinReader s; writer := writer s; io := p |}.

Definition with_out (s : state) (c : opc) (n : nat) (b : bytes)
  (r : Bufio.Reader) (w : Bufio.Writer) (p : process) : state :=
  {| in_pc := in_pc s; in_pos := in_pos s; in_buf := in_buf s;
     reader := reader s;
     out_pc := c; out_pos := n; out_buf := b;
     stdinReader := r; writer := w; io := p |}.

(** [if err != nil { os.Exit(0) }] *)
Definition after_in (err : option error) : ipc :=
  if is_err err then InExit else InRead.

(** [if err == io.EOF { conn.Close(); os.Exit(0) }; if err != nil { os.Exit(0) }] *)
Definition after_out (err : option error) : opc :=
  if is_EOF err then OutClose
  else if is_err err then OutExit
  else OutRead.

Definition step_in (E : Env) (s : state) : state :=
  match in_pc s with
  | InRead =>
      match Bufio.Read (reader s) bufSize (in_pos s)
              (read_conn E (io s) (in_pos s)) with
      | None => s
      | Some (reader', pos', r) =>
          let (buf', n) := read_into make_buf r in
          let pc' := if (0 <? n)%nat then InWrite n (rd_err r)
                     else after_in (rd_err r) in
          with_in s pc' pos' buf' reader' (io s)
      end
  | InWrite n err =>
      let (p', writeErr) := write_stdout E (firstn n (in_buf s)) (io s) in
      let pc' := if is_err writeErr then InExit else after_in err in
      with_in s pc' (in_pos s) (in_buf s) (reader s) p'
  | InExit =>
      with_in s InExit (in_pos s) (in_buf s) (reader s) (set_status 0 (io s))
  end.

Definition step_main (E : Env) (s : state) : state :=
  match out_pc s with
  | OutRead =>
      match Bufio.Read (stdinReader s) bufSize (out_pos s)
              (read_stdin E (out_pos s)) with
      | None => s
      | Some (reader', pos', r) =>
          let (buf', n) := read_into make_buf r in
          let pc' := if (0 <? n)%nat then OutWrite n (rd_err r)
                     else after_out (rd_err r) in
          with_out s pc' pos' buf' reader' (writer s) (io s)
      end
  | OutWrite n err =>
      let '(w', p', writeErr) :=
        Bufio.Write E (writer s) (firstn n (out_buf s)) (io s) in
      let pc' := if is_err writeErr then OutExit else OutFlush err in
      with_out s pc' (out_pos s) (out_buf s) (stdinReader s) w' p'
  | OutFlush err =>
      let '(w', p', flushErr) := Bufio.Flush E (writer s) (io s) in
      let pc' := if is_err flushErr then OutExit else after_out err in
      with_out s pc' (out_pos s) (out_buf s) (stdinReader s) w' p'
  | OutClose =>
      with_out s OutExit (out_pos s) (out_buf s) (stdinReader s) (writer s)
        (close_conn (io s))
  | OutExit =>
      with_out s OutExit (out_pos s) (out_buf s) (stdinReader s) (writer s)
        (set_status 0 (io s))
  end.

(** This revision has two threads: the goroutine ([TIn]) and the main
    goroutine ([TMain]), which runs the outbound loop itself. *)
Definition step (E : Env) (t : tid) (s : state) : state :=
  if exited (io s) then s
  else
    match t with
    | TIn => step_in E s
    | TOut => s
    | TMain => step_main E s
    end.

Definition run (E : Env) (sched : list tid) (s : state) : state :=
  fold_left (fun s t => step E t s) sched s.

Definition init (p : process) : state :=
  {| in_pc := InRead; in_pos := 0; in_buf := make_buf;
     reader := Bufio.NewReader;
     out_pc := OutRead; out_pos := 0; out_buf := make_buf;
     stdinReader := Bufio.NewReader; writer := Bufio.NewWriter;
     io := p |}.

Definition startIO (E : Env) (sched : list tid) (p : process) : state :=
  run E sched (init p).

(** The process as [main] hands it to [startIO]: the configuration line is
    on standard output, the status line on the error stream. *)
Definition entry (E : Env) (cfg : Config) : process :=
  log DiagConnected (dialled cfg (printed E cfg)).

(** [main]: [startIO] never returns, so the deferred [conn.Close()] never
    runs ([os.Exit] runs no deferred call). *)
Definition main (E : Env) (argv : list string) (sched : list tid) : process :=
  match parseArgs E argv with
  | Exit c => set_status c (log DiagUsage fresh)
  | Err err => set_status 1 (log (DiagError err) fresh)
  | Ok cfg =>
      match connect E cfg with
      | Some err => set_status 1 (log (DiagError err) (dialled cfg (printed E cfg)))
      | None => io (startIO E sched (entry E cfg))
      end
  end.

End Buffered.

(** ** The skeleton (unnamed revision): no relay yet *)

Module Skeleton.

(** [main]: after the status line it returns, the deferred [conn.Close()]
    runs and the process ends with status 0. *)
Definition main (E : Env) (argv : list string) : process :=
  match parseArgs E argv with
  | Exit c => set_status c (log DiagUsage fresh)
  | Err err => set_status 1 (log (DiagError err) fresh)
  | Ok cfg =>
      match connect E cfg with
      | Some err => set_status 1 (log (DiagError err) (dialled cfg (printed E cfg)))
      | None =>
          set_status 0
            (close_conn (log DiagConnected (dialled cfg (printed E cfg))))
      end
  end.

End Skeleton.

(** ** Vocabulary of the specification *)

Definition nonempty (d : bytes) : bool :=
  match d with
  | [] => false
  | _ :: _ => true
  end.

(** The non-empty chunks of a sequence of reads, each on its own and in the
    order of the reads. *)
Definition chunks (l : list rd) : list bytes :=
  filter nonempty (map rd_data l).

(** Every read delivers at most [n] bytes, as a [Read] into a buffer of [n]
    bytes does. *)
Definition fits (n : nat) (l : list rd) : Prop :=
  Forall (fun r => (List.length (rd_data r) <= n)%nat) l.



Module SignalledInv.
Import Signalled.

(** How many reads of a direction have been carried to the other side: all
    of them, but for the one whose bytes wait at the [Write]. *)
Definition delivered (d : dir) : nat :=
  match pc d with
  | AtWrite _ _ => Nat.pred (pos d)
  | _ => pos d
  end.

(** The channel is closed exactly when [once] has run, that was one
    [close], and nothing panicked. *)
Definition sig_ok (g : signal) : Prop :=
  panicked g = false /\
  done_closed g = once_done g /\
  fired g = (if once_done g then 1 else 0)%nat.

(** A direction, the script [l] it reads and the calls [out] it made so
    far. *)
Definition dir_ok (l : list rd) (d : dir) (out : list bytes) : Prop :=
  (pos d <= List.length l)%nat /\
  List.length (buf d) = bufSize /\
  out = chunks (firstn (delivered d) l) /\
  match pc d with
  | AtWrite n err =>
      exists r, nth_error l (delivered d) = Some r /\
                pos d = S (delivered d) /\
                firstn n (buf d) = rd_data r /\
                n = List.length (rd_data r) /\
                (0 < n)%nat /\
                err = rd_err r
  | _ => True
  end.

(** What the main goroutine has done at each of its points. *)
Definition main_ok (s : state) : Prop :=
  match main_pc s with
  | AtWait => closes (io s) = 0%nat /\ status (io s) = None
  | AtClose =>
      done_closed (sig s) = true /\ closes (io s) = 0%nat /\
      status (io s) = None
  | AtDefer =>
      done_closed (sig s) = true /\ closes (io s) = 1%nat /\
      status (io s) = None
  | MainReturned =>
      done_closed (sig s) = true /\ closes (io s) = 2%nat /\
      status (io s) = Some 0
  end.


(** The control side of the relay: the signal, and who is where. *)
Definition ctl_ok (s : state) : Prop :=
  sig_ok (sig s) /\
  (pc (inb s) = Returned -> once_done (sig s) = true) /\
  (pc (outb s) = Returned -> once_done (sig s) = true) /\
  main_ok s.

(** The data side: what each direction has copied. *)
Definition in_ok (E : Env) (s : state) : Prop :=
  dir_ok (conn_in E) (inb s) (stdout (io s)).

Definition out_ok (E : Env) (s : state) : Prop :=
  dir_ok (stdin_in E) (outb s) (conn_out (io s)).

End SignalledInv.

Module BufferedInv.
Import Buffered.

(** [l] cut into pieces of [n] bytes, the last one possibly shorter: how a
    [bufio.Reader] hands out what one read of its source brought. *)
Fixpoint chop_fuel (fuel n : nat) (l : bytes) : list bytes :=
  match fuel with
  | O => []
  | S f =>
      match l with
      | [] => []
      | _ :: _ => firstn n l :: chop_fuel f n (skipn n l)
      end
  end.

Definition chop (n : nat) (l : bytes) : list bytes :=
  chop_fuel (List.length l) n l.

(** The chunks the outbound loop gets from [stdinReader.Read] out of the
    reads [l] of standard input. *)
Definition rechunk (l : list rd) : list bytes :=
  flat_map (fun r => chop bufSize (rd_data r)) l.

(** The chunk the outbound loop holds and has not written to the
    connection yet: in its buffer before [writer.Write], in the writer
    before [writer.Flush]. *)
Definition pending (s : state) : list bytes :=
  match out_pc s with
  | OutWrite n _ => [firstn n (out_buf s)]
  | OutFlush _ => [Bufio.wbuf (writer s)]
  | _ => []
  end.

(** The writer at each point of the outbound loop. *)
Definition writer_ok (s : state) : Prop :=
  match out_pc s with
  | OutRead | OutClose =>
      Bufio.wbuf (writer s) = [] /\ Bufio.werr (writer s) = None
  | OutWrite n _ =>
      Bufio.wbuf (writer s) = [] /\ Bufio.werr (writer s) = None /\
      (0 < n <= bufSize)%nat /\ (n <= List.length (out_buf s))%nat
  | OutFlush _ =>
      Bufio.wbuf (writer s) <> [] /\ Bufio.werr (writer s) = None
  | OutExit => True
  end.

Definition out_ok (E : Env) (s : state) : Prop :=
  (out_pos s <= List.length (stdin_in E))%nat /\
  rechunk (firstn (out_pos s) (stdin_in E)) =
    conn_out (io s) ++ pending s ++ chop bufSize (Bufio.rbuf (stdinReader s)) /\
  writer_ok s.

End BufferedInv.

(** ** Arguments, spelled as the specification does *)

Definition is_digit (c : ascii) : bool :=
  existsb (Ascii.eqb c) (list_ascii_of_string "0123456789").

Fixpoint all_digits (s : string) : bool :=
  match s with
  | EmptyString => true
  | String c s' => is_digit c && all_digits s'
  end.

(** A port string that is an integer: an optional sign and at least one
    decimal digit. *)
Definition is_integer (s : string) : bool :=
  match s with
  | EmptyString => false
  | String c rest =>
      if Ascii.eqb c "-" || Ascii.eqb c "+"
      then negb (String.eqb rest "") && all_digits rest
      else all_digits s
  end.

(** The three revisions refuse [argv]: [parseArgs] returns an error, the
    process ends with status 1, and nothing was dialled. *)
Definition rejected (E : Env) (argv : list string) : Prop :=
  (exists e, parseArgs E argv = Err e) /\
  (forall sched,
      status (Signalled.main E argv sched) = Some 1 /\
      dials (Signalled.main E argv sched) = []) /\
  (forall sched,
      status (Buffered.main E argv sched) = Some 1 /\
      dials (Buffered.main E argv sched) = []) /\
  status (Skeleton.main E argv) = Some 1 /\
  dials (Skeleton.main E argv) = [].

(** ** Sample environments *)

(** Decimal flag values. *)
Definition decimal (s : string) : option Z :=
  match Strconv.Atoi s with
  | inr v => Some v
  | inl _ => None
  end.

(** Every dial succeeds, nobody sends anything, every write succeeds. *)
Definition quiet : Env :=
  {| intSyntax := decimal; dial := fun _ _ => None;
     conn_in := []; stdin_in := [];
     stdout_res := fun _ => None; conn_res := fun _ => None |}.

(** The peer closes the connection at once; the user types nothing. *)
Definition remote_closes : Env :=
  {| intSyntax := decimal; dial := fun _ _ => None;
     conn_in := [mkRd [] (Some EOF)]; stdin_in := [];
     stdout_res := fun _ => None; conn_res := fun _ => None |}.

(** An echo session: the user sends a line, the peer sends it back together
    with its end of stream, then standard input ends. *)
Definition echo : Env :=
  {| intSyntax := decimal; dial := fun _ _ => None;
     conn_in := [mkRd (bytes_of "ping") (Some EOF)];
     stdin_in := [mkRd (bytes_of "ping") None; mkRd [] (Some EOF)];
     stdout_res := fun _ => None; conn_res := fun _ => None |}.


(** A configuration to run the samples with. *)
Definition example_cfg : Config :=
  {| Host := "example.com"; Port := 80; Timeout := 10 |}.


Module BufferedClose.
Import Buffered.

(** One of the first [n] reads of standard input returned [io.EOF]. *)
Definition saw_EOF (E : Env) (n : nat) : Prop :=
  exists i r,
    (i < n)%nat /\ nth_error (stdin_in E) i = Some r /\ rd_err r = Some EOF.

(** The error the outbound loop carries past its data branch. *)
Definition carried (c : opc) : option error :=
  match c with
  | OutWrite _ err => err
  | OutFlush err => err
  | _ => None
  end.

(** Who may have closed the connection, and why. *)
Definition close_ok (E : Env) (s : state) : Prop :=
  (closes (io s) = 0%nat \/ (closes (io s) = 1%nat /\ out_pc s = OutExit)) /\
  carried (out_pc s) = None /\
  (forall e,
      Bufio.rerr (stdinReader s) = Some e ->
      exists r,
        nth_error (stdin_in E) (Nat.pred (out_pos s)) = Some r /\
        (0 < out_pos s)%nat /\ rd_err r = Some e) /\
  (out_pc s = OutClose \/ closes (io s) = 1%nat -> saw_EOF E (out_pos s)).

End BufferedClose.

Module BufferedIn.
Import Buffered BufferedInv.

(** The chunk the inbound goroutine holds and has not written to standard
    output yet. *)
Definition pending_in (s : state) : list bytes :=
  match in_pc s with
  | InWrite n _ => [firstn n (in_buf s)]
  | _ => []
  end.

(** Standard output holds [pre], written before the relay started, and then
    the chunks [reader.Read] has handed out, but for the one being written
    and those still to be cut from the reader's buffer. *)
Definition in_ok (E : Env) (pre : list bytes) (s : state) : Prop :=
  (in_pos s <= List.length (conn_in E))%nat /\
  exists W,
    stdout (io s) = pre ++ W /\
    rechunk (firstn (in_pos s) (conn_in E)) =
      W ++ pending_in s ++ chop bufSize (Bufio.rbuf (reader s)).

End BufferedIn.

Module SignalledLive.
Import Signalled.

(** How close a copying goroutine is to its return once an error is on its
    way: 1 when the [Read] it stands at will return an error, 2 at the
    [Write] of the bytes that came with one, 3 at [closeDone], 4 when it has
    returned; 0 as long as no error is in sight.  [next] is what its [Read]
    would return now. *)
Definition stage (next : option (rd * nat)) (d : dir) : nat :=
  match pc d with
  | AtRead =>
      match next with
      | Some (r, _) => if is_err (rd_err r) then 1 else 0
      | None => 0
      end
  | AtWrite _ err => if is_err err then 2 else 0
  | AtCloseDone => 3
  | Returned => 4
  end.

Definition stage_in (E : Env) (s : state) : nat :=
  stage (read_conn E (io s) (pos (inb s))) (inb s).

Definition stage_out (E : Env) (s : state) : nat :=
  stage (read_stdin E (pos (outb s))) (outb s).

End SignalledLive.

Module SignalledTerminal.
Import Signalled.

(** The direction will call [Read] again. *)
Definition live (d : dir) : bool :=
  match pc d with
  | AtRead => true
  | AtWrite _ err => negb (is_err err)
  | _ => false
  end.

(** The direction may call [Write] again. *)
Definition writing (d : dir) : bool :=
  match pc d with
  | AtRead | AtWrite _ _ => true
  | _ => false
  end.

(** No [Read] follows a [Read] that returned an error. *)
Definition reads_end (l : list rd) (d : dir) : Prop :=
  forall i r,
    nth_error l i = Some r -> is_err (rd_err r) = true ->
    (pos d <= S i)%nat /\ (live d = true -> (pos d <= i)%nat).

(** No [Write] follows a [Write] that failed. *)
Definition writes_end (res : nat -> option error) (d : dir)
  (out : list bytes) : Prop :=
  forall i,
    is_err (res i) = true ->
    (List.length out <= S i)%nat /\
    (writing d = true -> (List.length out <= i)%nat).

Definition terminal (E : Env) (s : state) : Prop :=
  reads_end (conn_in E) (inb s) /\
  writes_end (stdout_res E) (inb s) (stdout (io s)) /\
  reads_end (stdin_in E) (outb s) /\
  writes_end (conn_res E) (outb s) (conn_out (io s)).

End SignalledTerminal.

(** Standard output is a broken pipe; the peer keeps sending. *)
Definition broken_pipe : Env :=
  {| intSyntax := decimal; dial := fun _ _ => None;
     conn_in := [mkRd (bytes_of "one") None; mkRd (bytes_of "two") None;
                 mkRd (bytes_of "three") None];
     stdin_in := [];
     stdout_res := fun _ => Some (ErrIO "broken pipe");
     conn_res := fun _ => None |}.

Module BufferedLive.
Import Buffered.

(** The [Read] of a [bufio.Reader] hands out no byte and an error. *)
Definition fails (res : option (Bufio.Reader * nat * rd)) : bool :=
  match res with
  | Some (_, _, r) => negb (nonempty (rd_data r)) && is_err (rd_err r)
  | None => false
  end.

(** How close the inbound goroutine is to [os.Exit]: 1 when the [Read] it
    stands at fails, 2 at [os.Exit]; 0 otherwise. *)
Definition stage_in (E : Env) (s : state) : nat :=
  match in_pc s with
  | InRead =>
      if fails (Bufio.Read (reader s) bufSize (in_pos s)
                  (read_conn E (io s) (in_pos s)))
      then 1 else 0
  | InWrite _ _ => 0
  | InExit => 2
  end.

(** The same for the main goroutine: 1 when its [Read] fails, 2 at
    [conn.Close()], 3 at [os.Exit]. *)
Definition stage_out (E : Env) (s : state) : nat :=
  match out_pc s with
  | OutRead =>
      if fails (Bufio.Read (stdinReader s) bufSize (out_pos s)
                  (read_stdin E (out_pos s)))
      then 1 else 0
  | OutWrite _ _ => 0
  | OutFlush _ => 0
  | OutClose => 2
  | OutExit => 3
  end.

End BufferedLive.

(** * Properties *)

(** ** Lists and buffers *)

Lemma firstn_snoc_nth (A : Type) (l : list A) (n : nat) (x : A) :
  nth_error l n = Some x -> firstn (S n) l = firstn n l ++ [x].
Proof.
  revert n; induction l as [|a l IH]; intros [|n] H; simpl in *;
    try discriminate.
  - now inversion H.
  - f_equal. now apply IH.
Qed.

Lemma chunks_app (a b : list rd) : chunks (a ++ b) = chunks a ++ chunks b.
Proof. unfold chunks. now rewrite map_app, filter_app. Qed.

Lemma chunks_snoc (l : list rd) (r : rd) :
  chunks (l ++ [r]) =
  chunks l ++ (if nonempty (rd_data r) then [rd_data r] else []).
Proof. rewrite chunks_app. reflexivity. Qed.

Lemma fits_nth (n k : nat) (l : list rd) (r : rd) :
  fits n l -> nth_error l k = Some r -> (List.length (rd_data r) <= n)%nat.
Proof.
  intros F H. unfold fits in F. rewrite Forall_forall in F.
  apply F. eapply nth_error_In; eauto.
Qed.

Lemma read_into_fit (b : bytes) (r : rd) :
  (List.length (rd_data r) <= List.length b)%nat ->
  read_into b r =
  (rd_data r ++ skipn (List.length (rd_data r)) b, List.length (rd_data r)).
Proof.
  intros H. unfold read_into.
  rewrite Nat.min_l by exact H. now rewrite firstn_all.
Qed.

Lemma read_into_length (b : bytes) (r : rd) :
  List.length (fst (read_into b r)) = List.length b.
Proof.
  unfold read_into; simpl.
  rewrite length_app, length_firstn, length_skipn. lia.
Qed.

Lemma firstn_app_exact (A : Type) (a b : list A) :
  firstn (List.length a) (a ++ b) = a.
Proof.
  rewrite firstn_app, Nat.sub_diag, firstn_all. simpl. apply app_nil_r.
Qed.

Lemma nonempty_length (d : bytes) :
  nonempty d = (0 <? List.length d)%nat.
Proof. now destruct d. Qed.

(** ** The shutdown signal *)

Section SignalFacts.
Import Signalled SignalledInv.

Lemma closeDone_idem (g : signal) : closeDone (closeDone g) = closeDone g.
Proof.
  unfold closeDone. destruct (once_done g) eqn:O.
  - now rewrite O.
  - reflexivity.
Qed.

Lemma closeDone_once (g : signal) : once_done (closeDone g) = true.
Proof. unfold closeDone. destruct (once_done g) eqn:O; auto. Qed.

Lemma closeDone_ok (g : signal) : sig_ok g -> sig_ok (closeDone g).
Proof.
  intros (P & D & F). unfold closeDone, close_chan, sig_ok.
  destruct (once_done g) eqn:O.
  - now rewrite O.
  - rewrite D. simpl. rewrite P, F. auto.
Qed.

Lemma closeDone_fixed (g : signal) :
  once_done g = true -> closeDone g = g.
Proof. intros O. unfold closeDone. now rewrite O. Qed.

End SignalFacts.

Section DirFacts.
Import Signalled SignalledInv.

Variable l : list rd.
Hypothesis F : fits bufSize l.

Lemma dir_ok_retarget (d : dir) (out : list bytes) (q : gpc) :
  dir_ok l d out ->
  (forall n e, pc d <> AtWrite n e) ->
  (forall n e, q <> AtWrite n e) ->
  dir_ok l {| pc := q; pos := pos d; buf := buf d |} out.
Proof.
  intros (P & B & O & _) Hd Hq. unfold dir_ok, delivered in *. simpl.
  assert (Oq : out = chunks (firstn (pos d) l)).
  { destruct (pc d) eqn:Hp; auto. exfalso; eapply Hd; eauto. }
  destruct q; try (exfalso; eapply Hq; reflexivity); auto.
Qed.

Lemma dir_ok_read (d : dir) (out : list bytes) (r : rd) (q : gpc) :
  dir_ok l d out ->
  pc d = AtRead ->
  nth_error l (pos d) = Some r ->
  (forall n e, q <> AtWrite n e) ->
  dir_ok l
    {| pc := if (0 <? snd (read_into (buf d) r))%nat
             then AtWrite (snd (read_into (buf d) r)) (rd_err r) else q;
       pos := S (pos d);
       buf := fst (read_into (buf d) r) |} out.
Proof.
  intros (P & B & O & _) Hpc Hn Hq.
  assert (L : (List.length (rd_data r) <= List.length (buf d))%nat).
  { rewrite B. eapply fits_nth; eauto. }
  assert (Hpos : (S (pos d) <= List.length l)%nat).
  { apply nth_error_Some. congruence. }
  unfold delivered in O. rewrite Hpc in O.
  pose proof (read_into_length (buf d) r) as BL.
  rewrite (read_into_fit _ _ L) in *. simpl in *.
  unfold dir_ok, delivered; simpl.
  destruct (0 <? List.length (rd_data r))%nat eqn:Z; simpl.
  - split; [exact Hpos|]. split; [congruence|]. split; [exact O|].
    exists r. split; [exact Hn|]. split; [reflexivity|].
    split; [apply firstn_app_exact|]. split; [reflexivity|].
    split; [now apply Nat.ltb_lt|reflexivity].
  - assert (chunks (firstn (S (pos d)) l) = chunks (firstn (pos d) l)) as E.
    { rewrite (firstn_snoc_nth _ _ _ _ Hn), chunks_snoc.
      rewrite nonempty_length, Z. apply app_nil_r. }
    split; [exact Hpos|]. split; [congruence|].
    destruct q; try (exfalso; eapply Hq; reflexivity);
      (split; [congruence|exact I]).
Qed.

Lemma dir_ok_write (d : dir) (out : list bytes) (n : nat) (e : option error)
  (q : gpc) :
  dir_ok l d out ->
  pc d = AtWrite n e ->
  (forall n e, q <> AtWrite n e) ->
  dir_ok l {| pc := q; pos := pos d; buf := buf d |}
    (out ++ [firstn n (buf d)]).
Proof.
  intros (P & B & O & W) Hpc Hq. rewrite Hpc in W.
  destruct W as (r & Hn & Hp & Hf & Hl & Hz & He).
  unfold dir_ok; simpl.
  assert (chunks (firstn (pos d) l) = out ++ [firstn n (buf d)]) as E.
  { rewrite Hp, (firstn_snoc_nth _ _ _ _ Hn), chunks_snoc, <- O.
    rewrite nonempty_length, <- Hl.
    apply Nat.ltb_lt in Hz. rewrite Hz. now rewrite Hf. }
  split; [exact P|]. split; [exact B|].
  unfold delivered; simpl.
  destruct q; try (exfalso; eapply Hq; reflexivity);
    (split; [congruence|exact I]).
Qed.

End DirFacts.

Section SignalledSteps.
Import Signalled SignalledInv.

Variable E : Env.
Lemma crash_id (s : state) : panicked (sig s) = false -> crash s = s.
Proof. intros H. unfold crash. now rewrite H. Qed.

Lemma after_in_not_write (e : option error) (n : nat) (e' : option error) :
  after_in e <> AtWrite n e'.
Proof. unfold after_in. destruct (is_err e); discriminate. Qed.

Lemma after_out_not_write (e : option error) (n : nat) (e' : option error) :
  after_out e <> AtWrite n e'.
Proof.
  unfold after_out. destruct (is_EOF e); [discriminate|].
  destruct (is_err e); discriminate.
Qed.

Lemma main_ok_frame (s s' : state) :
  main_pc s' = main_pc s ->
  closes (io s') = closes (io s) ->
  status (io s') = status (io s) ->
  (done_closed (sig s) = true -> done_closed (sig s') = true) ->
  main_ok s -> main_ok s'.
Proof.
  unfold main_ok. intros -> -> -> D.
  destruct (main_pc s); intuition.
Qed.

Lemma closeDone_keeps_closed (g : signal) :
  sig_ok g -> done_closed g = true -> done_closed (closeDone g) = true.
Proof.
  intros (_ & D & _) H. rewrite closeDone_fixed; congruence.
Qed.

Lemma ctl_intro (s : state) :
  sig_ok (sig s) ->
  (pc (inb s) = Returned -> once_done (sig s) = true) ->
  (pc (outb s) = Returned -> once_done (sig s) = true) ->
  main_ok s ->
  ctl_ok s.
Proof. unfold ctl_ok. tauto. Qed.

Lemma ctl_step_in (s : state) : ctl_ok s -> ctl_ok (crash (step_in E s)).
Proof.
  intros Hinv. pose proof Hinv as (G & RI & RO & M).
  unfold step_in.
  destruct (pc (inb s)) eqn:Hpc.
  - unfold read_conn. destruct (conn_closed (io s)).
    + simpl. rewrite crash_id by apply G.
      apply ctl_intro; simpl; auto; discriminate.
    + destruct (nth_error (conn_in E) (pos (inb s))) as [r|] eqn:Hn.
      * destruct (read_into (buf (inb s)) r) as [b' n] eqn:R.
        rewrite crash_id by apply G.
        apply ctl_intro; simpl; auto.
        destruct (0 <? n)%nat; [discriminate|].
        unfold after_in; destruct (is_err (rd_err r)); discriminate.
      * rewrite crash_id by apply G. exact Hinv.
  - unfold write_stdout. cbv beta iota.
    rewrite crash_id by apply G.
    apply ctl_intro; simpl; auto.
    destruct (is_err _); [discriminate|].
    unfold after_in; destruct (is_err err); discriminate.
  - pose proof (closeDone_ok _ G) as G'.
    rewrite crash_id by apply G'.
    apply ctl_intro; simpl; auto.
    + intros _; apply closeDone_once.
    + intros _; apply closeDone_once.
    + eapply main_ok_frame; [| | | |exact M]; simpl; auto.
      now apply closeDone_keeps_closed.
  - rewrite crash_id by apply G. exact Hinv.
Qed.

Lemma ctl_step_out (s : state) : ctl_ok s -> ctl_ok (crash (step_out E s)).
Proof.
  intros Hinv. pose proof Hinv as (G & RI & RO & M).
  unfold step_out.
  destruct (pc (outb s)) eqn:Hpc.
  - unfold read_stdin.
    destruct (nth_error (stdin_in E) (pos (outb s))) as [r|] eqn:Hn.
    + destruct (read_into (buf (outb s)) r) as [b' n] eqn:R.
      rewrite crash_id by apply G.
      apply ctl_intro; simpl; auto.
      destruct (0 <? n)%nat; [discriminate|].
      unfold after_out; destruct (is_EOF (rd_err r)); [discriminate|].
      destruct (is_err (rd_err r)); discriminate.
    + rewrite crash_id by apply G. exact Hinv.
  - unfold write_conn. cbv beta iota.
    rewrite crash_id by apply G.
    apply ctl_intro; simpl; auto.
    destruct (is_err _); [discriminate|].
    unfold after_out; destruct (is_EOF err); [discriminate|].
    destruct (is_err err); discriminate.
  - pose proof (closeDone_ok _ G) as G'.
    rewrite crash_id by apply G'.
    apply ctl_intro; simpl; auto.
    + intros _; apply closeDone_once.
    + intros _; apply closeDone_once.
    + eapply main_ok_frame; [| | | |exact M]; simpl; auto.
      now apply closeDone_keeps_closed.
  - rewrite crash_id by apply G. exact Hinv.
Qed.

Lemma ctl_step_main (s : state) : ctl_ok s -> ctl_ok (step_main s).
Proof.
  intros Hinv. pose proof Hinv as (G & RI & RO & M).
  unfold step_main, main_ok in *.
  destruct (main_pc s) eqn:Hm.
  - destruct (done_closed (sig s)) eqn:D.
    + apply ctl_intro; simpl; auto.
      unfold main_ok; simpl. tauto.
    + exact Hinv.
  - apply ctl_intro; simpl; auto.
    unfold main_ok; simpl. intuition congruence.
  - apply ctl_intro; simpl; auto.
    unfold main_ok; simpl. intuition congruence.
  - exact Hinv.
Qed.

Lemma ctl_step (t : tid) (s : state) : ctl_ok s -> ctl_ok (step E t s).
Proof.
  intros H. unfold step. destruct (exited (io s)); [exact H|].
  destruct t.
  - now apply ctl_step_in.
  - now apply ctl_step_out.
  - now apply ctl_step_main.
Qed.

Lemma ctl_run (sched : list tid) (s : state) :
  ctl_ok s -> ctl_ok (run E sched s).
Proof.
  revert s. induction sched as [|t sched IH]; intros s H; simpl.
  - exact H.
  - apply IH. now apply ctl_step.
Qed.

Lemma ctl_init (p : process) :
  closes p = 0%nat -> status p = None -> ctl_ok (init p).
Proof.
  intros C T. apply ctl_intro; cbn [init inb outb sig main_pc io pc];
    try discriminate.
  - unfold sig_ok; simpl. auto.
  - unfold main_ok; simpl. auto.
Qed.

Lemma ctl_startIO (cfg : Config) (sched : list tid) :
  ctl_ok (startIO E sched (entry cfg)).
Proof. apply ctl_run, ctl_init; reflexivity. Qed.

(** The data invariants; each one needs only its own script to fit the
    buffer. *)

Lemma in_ok_step_in (s : state) :
  fits bufSize (conn_in E) -> in_ok E s -> in_ok E (step_in E s).
Proof.
  intros Fc DI. unfold in_ok in *. unfold step_in.
  destruct (pc (inb s)) eqn:Hpc.
  - unfold read_conn. destruct (conn_closed (io s)).
    + simpl.
      apply (dir_ok_retarget (conn_in E) (inb s) _ AtCloseDone DI);
        [rewrite Hpc|]; discriminate.
    + destruct (nth_error (conn_in E) (pos (inb s))) as [r|] eqn:Hn.
      * destruct (read_into (buf (inb s)) r) as [b' n] eqn:R. simpl.
        pose proof (dir_ok_read (conn_in E) Fc (inb s) _ r
                      (after_in (rd_err r)) DI Hpc Hn
                      (after_in_not_write _)) as H.
        rewrite R in H. exact H.
      * exact DI.
  - unfold write_stdout. simpl.
    apply (dir_ok_write (conn_in E) (inb s) _ n err _ DI Hpc).
    intros n' e'. destruct (is_err _); [discriminate|].
    apply after_in_not_write.
  - simpl.
    apply (dir_ok_retarget (conn_in E) (inb s) _ Returned DI);
      [rewrite Hpc|]; discriminate.
  - exact DI.
Qed.

Lemma out_ok_step_out (s : state) :
  fits bufSize (stdin_in E) -> out_ok E s -> out_ok E (step_out E s).
Proof.
  intros Fs DO. unfold out_ok in *. unfold step_out.
  destruct (pc (outb s)) eqn:Hpc.
  - unfold read_stdin.
    destruct (nth_error (stdin_in E) (pos (outb s))) as [r|] eqn:Hn.
    + destruct (read_into (buf (outb s)) r) as [b' n] eqn:R. simpl.
      pose proof (dir_ok_read (stdin_in E) Fs (outb s) _ r
                    (after_out (rd_err r)) DO Hpc Hn
                    (after_out_not_write _)) as H.
      rewrite R in H. exact H.
    + exact DO.
  - unfold write_conn. simpl.
    apply (dir_ok_write (stdin_in E) (outb s) _ n err _ DO Hpc).
    intros n' e'. destruct (is_err _); [discriminate|].
    apply after_out_not_write.
  - simpl.
    apply (dir_ok_retarget (stdin_in E) (outb s) _ Returned DO);
      [rewrite Hpc|]; discriminate.
  - exact DO.
Qed.

(** Frame: a step of one thread leaves the other direction and its sink
    alone. *)

Lemma step_out_frame (s : state) :
  inb (step_out E s) = inb s /\ stdout (io (step_out E s)) = stdout (io s).
Proof.
  unfold step_out. destruct (pc (outb s)); auto.
  - destruct (read_stdin E (pos (outb s))) as [[r p']|]; auto.
Qed.

Lemma step_in_frame (s : state) :
  outb (step_in E s) = outb s /\
  conn_out (io (step_in E s)) = conn_out (io s).
Proof.
  unfold step_in. destruct (pc (inb s)); auto.
  - destruct (read_conn E (io s) (pos (inb s))) as [[r p']|]; auto.
Qed.

Lemma step_main_frame (s : state) :
  inb (step_main s) = inb s /\ outb (step_main s) = outb s /\
  sig (step_main s) = sig s /\
  stdout (io (step_main s)) = stdout (io s) /\
  conn_out (io (step_main s)) = conn_out (io s).
Proof.
  unfold step_main. destruct (main_pc s); auto.
  now destruct (done_closed (sig s)).
Qed.

Lemma crash_frame (s : state) :
  inb (crash s) = inb s /\ outb (crash s) = outb s /\
  sig (crash s) = sig s /\ main_pc (crash s) = main_pc s /\
  stdout (io (crash s)) = stdout (io s) /\
  conn_out (io (crash s)) = conn_out (io s) /\
  closes (io (crash s)) = closes (io s).
Proof. unfold crash. now destruct (panicked (sig s)). Qed.

Lemma in_ok_step (t : tid) (s : state) :
  fits bufSize (conn_in E) -> in_ok E s -> in_ok E (step E t s).
Proof.
  intros Fc H. unfold step. destruct (exited (io s)); [exact H|].
  unfold in_ok in *. destruct t.
  - destruct (crash_frame (step_in E s)) as (-> & _ & _ & _ & -> & _).
    now apply in_ok_step_in.
  - destruct (crash_frame (step_out E s)) as (-> & _ & _ & _ & -> & _).
    destruct (step_out_frame s) as (-> & ->). exact H.
  - destruct (step_main_frame s) as (-> & _ & _ & -> & _). exact H.
Qed.

Lemma out_ok_step (t : tid) (s : state) :
  fits bufSize (stdin_in E) -> out_ok E s -> out_ok E (step E t s).
Proof.
  intros Fs H. unfold step. destruct (exited (io s)); [exact H|].
  unfold out_ok in *. destruct t.
  - destruct (crash_frame (step_in E s)) as (_ & -> & _ & _ & _ & -> & _).
    destruct (step_in_frame s) as (-> & ->). exact H.
  - destruct (crash_frame (step_out E s)) as (_ & -> & _ & _ & _ & -> & _).
    now apply out_ok_step_out.
  - destruct (step_main_frame s) as (_ & -> & _ & _ & ->). exact H.
Qed.

Lemma in_ok_run (sched : list tid) (s : state) :
  fits bufSize (conn_in E) -> in_ok E s -> in_ok E (run E sched s).
Proof.
  intros Fc. revert s. induction sched as [|t sched IH]; intros s H; simpl.
  - exact H.
  - apply IH. now apply in_ok_step.
Qed.

Lemma out_ok_run (sched : list tid) (s : state) :
  fits bufSize (stdin_in E) -> out_ok E s -> out_ok E (run E sched s).
Proof.
  intros Fs. revert s. induction sched as [|t sched IH]; intros s H; simpl.
  - exact H.
  - apply IH. now apply out_ok_step.
Qed.

Lemma dir_ok_start (l : list rd) :
  dir_ok l {| pc := AtRead; pos := 0; buf := make_buf |} [].
Proof.
  unfold dir_ok, delivered; cbn [pc pos buf].
  split; [lia|]. split; [apply repeat_length|]. split; auto.
Qed.

Lemma in_ok_startIO (cfg : Config) (sched : list tid) :
  fits bufSize (conn_in E) -> in_ok E (startIO E sched (entry cfg)).
Proof. intros Fc. apply in_ok_run; [exact Fc|]. apply dir_ok_start. Qed.

Lemma out_ok_startIO (cfg : Config) (sched : list tid) :
  fits bufSize (stdin_in E) -> out_ok E (startIO E sched (entry cfg)).
Proof. intros Fs. apply out_ok_run; [exact Fs|]. apply dir_ok_start. Qed.

End SignalledSteps.

(** ** Progress of the main goroutine *)

Section SignalledProgress.
Import Signalled SignalledInv.

Variable E : Env.








End SignalledProgress.

(** ** The relay with a shutdown signal: the claims *)

Section SignalledClaims.
Import Signalled SignalledInv.


Lemma concat_chunks (l : list rd) :
  List.concat (chunks l) = List.concat (map rd_data l).
Proof.
  unfold chunks. induction l as [|r l IH]; simpl; [reflexivity|].
  destruct (rd_data r); simpl; [exact IH|]. now rewrite IH.
Qed.

Lemma chunks_prefix (k : nat) (l : list rd) :
  List.concat (map rd_data l) =
  List.concat (chunks (firstn k l)) ++ List.concat (map rd_data (skipn k l)).
Proof.
  rewrite concat_chunks, <- List.concat_app, <- map_app.
  now rewrite firstn_skipn.
Qed.

Lemma sig_ok_fired (g : signal) : sig_ok g -> (fired g <= 1)%nat.
Proof. intros (_ & _ & ->). destruct (once_done g); lia. Qed.

Lemma sig_ok_once (g : signal) :
  sig_ok g -> once_done g = true -> done_closed g = true /\ fired g = 1%nat.
Proof. intros (_ & -> & ->) ->. auto. Qed.


(** C3 -- Shutdown Signal idempotence.  [closeDone] applied again changes
    nothing, so any number of calls is one call; from the initial signal
    any number of calls closes the channel exactly once and without a
    panic; and in the relay, whatever the interleaving of the two
    directions and however many of them call [closeDone], at most one
    [close(done)] happens, exactly one as soon as [once] has run, and the
    process never ends with the status of a panic. *)
Theorem shutdown_signal_idempotent :
  (forall g, closeDone (closeDone g) = closeDone g) /\
  (forall g n, Nat.iter (S n) closeDone g = closeDone g) /\
  (forall n,
      let g := Nat.iter (S n) closeDone (sig (init fresh)) in
      fired g = 1%nat /\ done_closed g = true /\ panicked g = false) /\
  (forall E cfg sched,
      let s := startIO E sched (entry cfg) in
      panicked (sig s) = false /\
      (fired (sig s) <= 1)%nat /\
      (once_done (sig s) = true ->
       done_closed (sig s) = true /\ fired (sig s) = 1%nat) /\
      status (io s) <> Some 2).
Proof.
  assert (I : forall g n, Nat.iter (S n) closeDone g = closeDone g).
  { intros g n. induction n as [|n IH]; [reflexivity|].
    change (Nat.iter (S (S n)) closeDone g)
      with (closeDone (Nat.iter (S n) closeDone g)).
    rewrite IH. apply closeDone_idem. }
  split; [exact closeDone_idem|]. split; [exact I|]. split.
  - intros n g. subst g. rewrite I. cbv. auto.
  - intros E cfg sched s.
    pose proof (ctl_startIO E cfg sched) as (G & _ & _ & M). fold s in G, M.
    split; [apply G|]. split; [now apply sig_ok_fired|].
    split; [now apply sig_ok_once|].
    unfold main_ok in M. destruct (main_pc s);
      (destruct M as (? & ? & T) || destruct M as (? & T));
      rewrite T; discriminate.
Qed.


(** C1 -- Inbound byte fidelity.  Whatever the schedule, the calls
    [os.Stdout.Write] has received are exactly the non-empty chunks read
    from the connection, one call per chunk and in the order of the reads
    (the chunk whose [Write] is still to come left out); at that [Write] the
    first [n] bytes of the buffer are the chunk as read, and the [Write]
    passes them on unchanged; so standard output is a prefix of the byte
    stream of the connection. *)
Theorem inbound_fidelity (E : Env) (cfg : Config) (sched : list tid) :
  fits bufSize (conn_in E) ->
  let s := startIO E sched (entry cfg) in
  stdout (io s) = chunks (firstn (delivered (inb s)) (conn_in E)) /\
  (forall n err,
      pc (inb s) = AtWrite n err ->
      exists r,
        nth_error (conn_in E) (delivered (inb s)) = Some r /\
        n = List.length (rd_data r) /\
        firstn n (buf (inb s)) = rd_data r /\
        (exited (io s) = false ->
         stdout (io (step E TIn s)) = stdout (io s) ++ [rd_data r])) /\
  (exists rest,
      List.concat (map rd_data (conn_in E)) = List.concat (stdout (io s)) ++ rest).
Proof.
  intros Fc s.
  pose proof (in_ok_startIO E cfg sched Fc) as (P & B & O & W). fold s in P, B, O, W.
  split; [exact O|]. split.
  - intros n err Hpc. rewrite Hpc in W.
    destruct W as (r & Hn & Hp & Hf & Hl & Hz & He).
    exists r. repeat (split; [assumption|]).
    intros X. unfold step. rewrite X.
    destruct (crash_frame (step_in E s)) as (_ & _ & _ & _ & -> & _).
    unfold step_in. rewrite Hpc. simpl. now rewrite Hf.
  - rewrite O. eexists. apply chunks_prefix.
Qed.

(** The same for the other direction, for use below. *)
Lemma outbound_copy (E : Env) (cfg : Config) (sched : list tid) :
  fits bufSize (stdin_in E) ->
  let s := startIO E sched (entry cfg) in
  conn_out (io s) = chunks (firstn (delivered (outb s)) (stdin_in E)) /\
  (forall n err,
      pc (outb s) = AtWrite n err ->
      exists r,
        nth_error (stdin_in E) (delivered (outb s)) = Some r /\
        n = List.length (rd_data r) /\
        firstn n (buf (outb s)) = rd_data r /\
        (exited (io s) = false ->
         conn_out (io (step E TOut s)) = conn_out (io s) ++ [rd_data r])).
Proof.
  intros Fs s.
  pose proof (out_ok_startIO E cfg sched Fs) as (P & B & O & W). fold s in P, B, O, W.
  split; [exact O|].
  intros n err Hpc. rewrite Hpc in W.
  destruct W as (r & Hn & Hp & Hf & Hl & Hz & He).
  exists r. repeat (split; [assumption|]).
  intros X. unfold step. rewrite X.
  destruct (crash_frame (step_out E s)) as (_ & _ & _ & _ & _ & -> & _).
  unfold step_out. rewrite Hpc. simpl. now rewrite Hf.
Qed.

End SignalledClaims.

Section SignalledTrailing.
Import Signalled SignalledInv.

Lemma delivered_pos (d : dir) :
  pc d = AtCloseDone \/ pc d = Returned -> delivered d = pos d.
Proof. unfold delivered. now intros [-> | ->]. Qed.

Lemma nonempty_true (d : bytes) : d <> [] -> (0 <? List.length d)%nat = true.
Proof. destruct d; [congruence|reflexivity]. Qed.

(** C10 -- Trailing data is not lost.  In both directions, whatever the
    schedule: a direction that stands at [closeDone] or has returned has
    passed every non-empty chunk it ever read to its destination, the last
    one included; and when a read brings bytes together with an error, the
    next step of the direction is the [Write] of exactly these bytes, and
    only the step after it is [closeDone] -- the signal is untouched until
    then. *)
Theorem trailing_data_not_lost (E : Env) (cfg : Config) (sched : list tid) :
  fits bufSize (conn_in E) ->
  fits bufSize (stdin_in E) ->
  let s := startIO E sched (entry cfg) in
  (pc (inb s) = AtCloseDone \/ pc (inb s) = Returned ->
   stdout (io s) = chunks (firstn (pos (inb s)) (conn_in E))) /\
  (pc (outb s) = AtCloseDone \/ pc (outb s) = Returned ->
   conn_out (io s) = chunks (firstn (pos (outb s)) (stdin_in E))) /\
  (forall r,
      exited (io s) = false ->
      pc (inb s) = AtRead ->
      read_conn E (io s) (pos (inb s)) = Some (r, S (pos (inb s))) ->
      rd_data r <> [] ->
      is_err (rd_err r) = true ->
      let s1 := step E TIn s in
      let s2 := step E TIn s1 in
      pc (inb s1) = AtWrite (List.length (rd_data r)) (rd_err r) /\
      sig s1 = sig s /\
      stdout (io s2) = stdout (io s) ++ [rd_data r] /\
      pc (inb s2) = AtCloseDone /\
      sig s2 = sig s) /\
  (forall r,
      exited (io s) = false ->
      pc (outb s) = AtRead ->
      read_stdin E (pos (outb s)) = Some (r, S (pos (outb s))) ->
      rd_data r <> [] ->
      is_err (rd_err r) = true ->
      let s1 := step E TOut s in
      let s2 := step E TOut s1 in
      pc (outb s1) = AtWrite (List.length (rd_data r)) (rd_err r) /\
      sig s1 = sig s /\
      conn_out (io s2) = conn_out (io s) ++ [rd_data r] /\
      pc (outb s2) = AtCloseDone /\
      sig s2 = sig s).
Proof.
  intros Fc Fs s.
  pose proof (in_ok_startIO E cfg sched Fc) as DI.
  pose proof (out_ok_startIO E cfg sched Fs) as DO.
  pose proof (ctl_startIO E cfg sched) as C.
  fold s in DI, DO, C.
  split.
  { intros H. destruct DI as (_ & _ & O & _).
    now rewrite <- (delivered_pos _ H). }
  split.
  { intros H. destruct DO as (_ & _ & O & _).
    now rewrite <- (delivered_pos _ H). }
  split.
  - intros r X Hpc Hr Hd He s1 s2.
    assert (L : (List.length (rd_data r) <= List.length (buf (inb s)))%nat).
    { destruct DI as (_ & B & _). rewrite B.
      unfold read_conn in Hr. destruct (conn_closed (io s)).
      - inversion Hr. lia.
      - destruct (nth_error (conn_in E) (pos (inb s))) as [r'|] eqn:Hn;
          [|discriminate].
        inversion Hr; subst r'. exact (fits_nth _ _ _ _ Fc Hn). }
    assert (E1 : step_in E s =
                 {| inb := {| pc := AtWrite (List.length (rd_data r)) (rd_err r);
                              pos := S (pos (inb s));
                              buf := rd_data r ++
                                     skipn (List.length (rd_data r)) (buf (inb s)) |};
                    outb := outb s; sig := sig s; main_pc := main_pc s;
                    io := io s |}).
    { unfold step_in. rewrite Hpc, Hr, (read_into_fit _ _ L).
      now rewrite (nonempty_true _ Hd). }
    assert (P : panicked (sig s) = false) by apply C.
    assert (S1 : s1 = step_in E s).
    { unfold s1, step. rewrite X. apply crash_id. now rewrite E1. }
    assert (X1 : exited (io s1) = false) by now rewrite S1, E1.
    assert (E2 : step_in E s1 =
                 {| inb := {| pc := AtCloseDone; pos := S (pos (inb s));
                              buf := buf (inb s1) |};
                    outb := outb s; sig := sig s; main_pc := main_pc s;
                    io := fst (write_stdout E (rd_data r) (io s)) |}).
    { rewrite S1, E1. unfold step_in. cbn [inb pc pos buf outb sig main_pc io].
      rewrite firstn_app_exact. unfold write_stdout. cbn [fst].
      unfold after_in. rewrite He.
      now destruct (is_err (stdout_res E (List.length (stdout (io s))))). }
    assert (S2 : s2 = step_in E s1).
    { unfold s2, step. rewrite X1. apply crash_id. now rewrite E2. }
    rewrite S2, E2, S1, E1. cbn. auto.
  - intros r X Hpc Hr Hd He s1 s2.
    assert (L : (List.length (rd_data r) <= List.length (buf (outb s)))%nat).
    { destruct DO as (_ & B & _). rewrite B.
      unfold read_stdin in Hr.
      destruct (nth_error (stdin_in E) (pos (outb s))) as [r'|] eqn:Hn;
        [|discriminate].
      inversion Hr; subst r'. exact (fits_nth _ _ _ _ Fs Hn). }
    assert (E1 : step_out E s =
                 {| inb := inb s;
                    outb := {| pc := AtWrite (List.length (rd_data r)) (rd_err r);
                               pos := S (pos (outb s));
                               buf := rd_data r ++
                                      skipn (List.length (rd_data r)) (buf (outb s)) |};
                    sig := sig s; main_pc := main_pc s; io := io s |}).
    { unfold step_out. rewrite Hpc, Hr, (read_into_fit _ _ L).
      now rewrite (nonempty_true _ Hd). }
    assert (P : panicked (sig s) = false) by apply C.
    assert (S1 : s1 = step_out E s).
    { unfold s1, step. rewrite X. apply crash_id. now rewrite E1. }
    assert (X1 : exited (io s1) = false) by now rewrite S1, E1.
    assert (E2 : step_out E s1 =
                 {| inb := inb s;
                    outb := {| pc := AtCloseDone; pos := S (pos (outb s));
                               buf := buf (outb s1) |};
                    sig := sig s; main_pc := main_pc s;
                    io := fst (write_conn E (rd_data r) (io s)) |}).
    { rewrite S1, E1. unfold step_out. cbn [inb pc pos buf outb sig main_pc io].
      rewrite firstn_app_exact. unfold write_conn. cbn [fst].
      unfold after_out. rewrite He.
      destruct (is_err (if conn_closed (io s) then Some ErrClosed
                        else conn_res E (List.length (conn_out (io s)))));
        now destruct (is_EOF (rd_err r)). }
    assert (S2 : s2 = step_out E s1).
    { unfold s2, step. rewrite X1. apply crash_id. now rewrite E2. }
    rewrite S2, E2, S1, E1. cbn. auto.
Qed.

End SignalledTrailing.

(** ** The relay on bufio: the outbound loop *)

Section BufferedOut.
Import Buffered BufferedInv.

Lemma chop_fuel_any (n : nat) :
  (0 < n)%nat ->
  forall f l f',
    (List.length l <= f)%nat -> (List.length l <= f')%nat ->
    chop_fuel f n l = chop_fuel f' n l.
Proof.
  intros Hn. induction f as [|f IH]; intros l f' Hl Hl'.
  - destruct l; [now destruct f'|simpl in Hl; exfalso; lia].
  - destruct l as [|a l]; [now destruct f'|].
    destruct f' as [|f']; [simpl in Hl'; exfalso; lia|].
    cbn [chop_fuel]. f_equal.
    assert (L : (List.length (skipn n (a :: l)) <= List.length l)%nat).
    { rewrite length_skipn. cbn [List.length]. lia. }
    cbn [List.length] in Hl, Hl'.
    apply IH; lia.
Qed.

Lemma chop_fuel_enough (n : nat) :
  (0 < n)%nat ->
  forall f l, (List.length l <= f)%nat ->
  chop_fuel f n l = chop_fuel (List.length l) n l.
Proof.
  intros Hn f l Hl. now apply chop_fuel_any.
Qed.

Lemma chop_cons (n : nat) (l : bytes) :
  (0 < n)%nat -> l <> [] -> chop n l = firstn n l :: chop n (skipn n l).
Proof.
  intros Hn Hl. unfold chop. destruct l as [|a l]; [congruence|].
  cbn [chop_fuel List.length]. f_equal.
  apply chop_fuel_enough; [exact Hn|].
  rewrite length_skipn. cbn [List.length]. lia.
Qed.

Lemma rechunk_snoc (l : list rd) (r : rd) :
  rechunk (l ++ [r]) = rechunk l ++ chop bufSize (rd_data r).
Proof.
  unfold rechunk. rewrite flat_map_app. simpl. now rewrite app_nil_r.
Qed.

Lemma bufSize_pos : (0 < bufSize)%nat.
Proof. unfold bufSize. lia. Qed.

Lemma length_make_buf : List.length make_buf = bufSize.
Proof. apply repeat_length. Qed.

(** What [read_into] does with a chunk handed out by a [bufio.Reader]. *)
Lemma read_into_chunk (d : bytes) (e : option error) :
  read_into make_buf (mkRd (firstn bufSize d) e) =
  (firstn bufSize d ++ skipn (List.length (firstn bufSize d)) make_buf,
   List.length (firstn bufSize d)).
Proof.
  apply (read_into_fit make_buf (mkRd (firstn bufSize d) e)).
  cbn [rd_data]. rewrite length_firstn, length_make_buf. lia.
Qed.

Lemma firstn_nonempty (d : bytes) :
  d <> [] -> (0 <? List.length (firstn bufSize d))%nat = true.
Proof.
  intros H. apply Nat.ltb_lt. rewrite length_firstn.
  pose proof bufSize_pos. destruct d; [congruence|]. simpl. lia.
Qed.

Variable E : Env.
Hypothesis Fs : fits Bufio.defaultBufSize (stdin_in E).

Lemma after_out_cases (e : option error) :
  after_out e = OutRead \/ after_out e = OutClose \/ after_out e = OutExit.
Proof.
  unfold after_out. destruct (is_EOF e); auto. destruct (is_err e); auto.
Qed.

Lemma buffered_out_step_main (s : state) : out_ok E s -> out_ok E (step_main E s).
Proof.
  intros Hinv. pose proof Hinv as (P & Q & W).
  unfold step_main.
  destruct (out_pc s) eqn:Hpc; unfold pending, writer_ok in Q, W;
    rewrite Hpc in Q, W.
  - (* stdinReader.Read *)
    unfold Bufio.Read.
    destruct (Bufio.rbuf (stdinReader s)) as [|b rb] eqn:Hb.
    + destruct (Bufio.rerr (stdinReader s)) as [e|] eqn:He.
      * (* the error kept from the last read *)
        cbn [read_into rd_data rd_err List.length Nat.min firstn skipn app Nat.ltb Nat.leb].
        unfold out_ok, pending, writer_ok, with_out;
          cbn [out_pc out_pos out_buf stdinReader writer io Bufio.rbuf].
        split; [exact P|].
        destruct (after_out_cases (Some e)) as [H|[H|H]]; rewrite H;
          (split; [exact Q|]); auto.
      * unfold read_stdin.
        destruct (nth_error (stdin_in E) (out_pos s)) as [r|] eqn:Hn;
          [|exact Hinv].
        assert (Hp : (S (out_pos s) <= List.length (stdin_in E))%nat).
        { apply nth_error_Some. congruence. }
        assert (Hf : firstn Bufio.defaultBufSize (rd_data r) = rd_data r).
        { apply firstn_all2. eapply fits_nth; eauto. }
        rewrite Hf.
        assert (R : rechunk (firstn (S (out_pos s)) (stdin_in E)) =
                    conn_out (io s) ++ chop bufSize (rd_data r)).
        { rewrite (firstn_snoc_nth _ _ _ _ Hn), rechunk_snoc, Q.
          now rewrite app_nil_r. }
        destruct (rd_data r) as [|b d] eqn:Hd.
        -- cbn [read_into rd_data rd_err List.length Nat.min firstn skipn app Nat.ltb Nat.leb].
           unfold out_ok, pending, writer_ok, with_out;
             cbn [out_pc out_pos out_buf stdinReader writer io Bufio.rbuf].
           split; [exact Hp|].
           destruct (after_out_cases (rd_err r)) as [H|[H|H]]; rewrite H;
             (split; [exact R|]); auto.
        -- rewrite read_into_chunk.
           rewrite firstn_nonempty by discriminate.
           unfold out_ok, pending, writer_ok, with_out;
             cbn [out_pc out_pos out_buf stdinReader writer io Bufio.rbuf].
           rewrite firstn_app_exact.
           split; [exact Hp|]. split.
           ++ rewrite R. rewrite chop_cons;
                [reflexivity|exact bufSize_pos|discriminate].
           ++ destruct W as (W1 & W2). repeat split; auto.
              ** apply Nat.ltb_lt, firstn_nonempty. discriminate.
              ** rewrite length_firstn. lia.
              ** rewrite length_app. lia.
    + (* bytes left from the last read *)
      rewrite read_into_chunk.
      rewrite firstn_nonempty by discriminate.
      unfold out_ok, pending, writer_ok, with_out;
        cbn [out_pc out_pos out_buf stdinReader writer io Bufio.rbuf].
      rewrite firstn_app_exact.
      split; [exact P|]. split.
      * rewrite Q. rewrite (chop_cons bufSize (b :: rb));
          [reflexivity|exact bufSize_pos|discriminate].
      * destruct W as (W1 & W2). repeat split; auto.
        -- apply Nat.ltb_lt, firstn_nonempty. discriminate.
        -- rewrite length_firstn. lia.
        -- rewrite length_app. lia.
  - (* writer.Write *)
    destruct W as (W1 & W2 & (Wn & Wb) & Wl).
    unfold Bufio.Write, Bufio.Available. rewrite W2, W1.
    assert (L : (List.length (firstn n (out_buf s)) <=?
                 Bufio.defaultBufSize - List.length (@nil Byte.byte))%nat = true).
    { apply Nat.leb_le. rewrite length_firstn.
      unfold Bufio.defaultBufSize, bufSize in *. simpl. lia. }
    rewrite L.
    unfold out_ok, pending, writer_ok, with_out;
      cbn [out_pc out_pos out_buf stdinReader writer io Bufio.rbuf
           Bufio.wbuf Bufio.werr is_err app].
    split; [exact P|]. split; [exact Q|]. split; [|reflexivity].
    intros H. apply (f_equal (@List.length _)) in H.
    rewrite length_firstn in H. simpl in H. lia.
  - (* writer.Flush *)
    destruct W as (W1 & W2).
    unfold Bufio.Flush. rewrite W2.
    destruct (Bufio.wbuf (writer s)) as [|b wb] eqn:Hw; [congruence|].
    unfold write_conn.
    destruct (if conn_closed (io s) then Some ErrClosed
              else conn_res E (List.length (conn_out (io s)))) as [e|].
    + unfold out_ok, pending, writer_ok, with_out;
        cbn [out_pc out_pos out_buf stdinReader writer io Bufio.rbuf
             Bufio.wbuf Bufio.werr is_err app conn_out].
      split; [exact P|]. split; [|exact I].
      rewrite Q. now rewrite <- app_assoc.
    + unfold out_ok, pending, writer_ok, with_out;
        cbn [out_pc out_pos out_buf stdinReader writer io Bufio.rbuf
             Bufio.wbuf Bufio.werr is_err app conn_out].
      split; [exact P|].
      destruct (after_out_cases err) as [H|[H|H]]; rewrite H;
        (split; [rewrite Q; now rewrite <- app_assoc|]); auto.
  - (* conn.Close *)
    unfold out_ok, pending, writer_ok, with_out;
      cbn [out_pc out_pos out_buf stdinReader writer io Bufio.rbuf
           close_conn conn_out].
    split; [exact P|]. split; [exact Q|exact I].
  - (* os.Exit *)
    unfold out_ok, pending, writer_ok, with_out;
      cbn [out_pc out_pos out_buf stdinReader writer io Bufio.rbuf
           set_status conn_out].
    split; [exact P|]. split; [exact Q|exact I].
Qed.

End BufferedOut.

Section BufferedRun.
Import Buffered BufferedInv.

Variable E : Env.

(** The goroutine touches nothing of the outbound loop. *)
Lemma buffered_step_in_out_frame (s : state) :
  out_pc (step_in E s) = out_pc s /\
  out_pos (step_in E s) = out_pos s /\
  out_buf (step_in E s) = out_buf s /\
  stdinReader (step_in E s) = stdinReader s /\
  writer (step_in E s) = writer s /\
  conn_out (io (step_in E s)) = conn_out (io s).
Proof.
  unfold step_in. destruct (in_pc s).
  - destruct (Bufio.Read (reader s) bufSize (in_pos s)
                (read_conn E (io s) (in_pos s))) as [[[r' p'] r]|];
      [|repeat split].
    destruct (read_into make_buf r). repeat split.
  - repeat split.
  - repeat split.
Qed.

Lemma buffered_out_step_in (s : state) : out_ok E s -> out_ok E (step_in E s).
Proof.
  destruct (buffered_step_in_out_frame s) as (H1 & H2 & H3 & H4 & H5 & H6).
  unfold out_ok, pending, writer_ok.
  now rewrite H1, H2, H3, H4, H5, H6.
Qed.

Hypothesis Fs : fits Bufio.defaultBufSize (stdin_in E).

Lemma buffered_out_step (t : tid) (s : state) : out_ok E s -> out_ok E (step E t s).
Proof.
  intros H. unfold step. destruct (exited (io s)); [exact H|].
  destruct t.
  - now apply buffered_out_step_in.
  - exact H.
  - now apply buffered_out_step_main.
Qed.

Lemma buffered_out_run (sched : list tid) (s : state) :
  out_ok E s -> out_ok E (run E sched s).
Proof.
  revert s. induction sched as [|t sched IH]; intros s H; simpl.
  - exact H.
  - apply IH. now apply buffered_out_step.
Qed.

Lemma buffered_out_init (p : process) : conn_out p = [] -> out_ok E (init p).
Proof.
  intros H. unfold out_ok, pending, writer_ok, init;
    cbn [out_pc out_pos out_buf stdinReader writer io
         Bufio.NewReader Bufio.NewWriter Bufio.rbuf Bufio.wbuf Bufio.werr
         firstn].
  rewrite H. repeat split. lia.
Qed.

Lemma buffered_out_startIO (cfg : Config) (sched : list tid) :
  out_ok E (startIO E sched (entry E cfg)).
Proof. apply buffered_out_run, buffered_out_init. reflexivity. Qed.

End BufferedRun.

(** C2 -- Outbound transmission.  In the revision with a signal the calls
    [conn.Write] has received are exactly the non-empty chunks read from
    standard input, one unbuffered call per chunk.  In the revision on
    [bufio] the chunks [stdinReader.Read] hands out are, in order, those
    written to the connection, the one being written, and those still to
    be cut from the reader's buffer; [writer.Write] only stores the chunk,
    the [writer.Flush] that follows carries exactly this chunk to the
    connection, and the writer holds nothing whenever the loop reads
    again. *)
Theorem outbound_transmission (E : Env) (cfg : Config) (sched : list tid) :
  (fits bufSize (stdin_in E) ->
   let s := Signalled.startIO E sched (Signalled.entry cfg) in
   conn_out (Signalled.io s) =
     chunks (firstn (SignalledInv.delivered (Signalled.outb s)) (stdin_in E)) /\
   (forall n err,
       Signalled.pc (Signalled.outb s) = Signalled.AtWrite n err ->
       exists r,
         nth_error (stdin_in E) (SignalledInv.delivered (Signalled.outb s))
           = Some r /\
         n = List.length (rd_data r) /\
         firstn n (Signalled.buf (Signalled.outb s)) = rd_data r /\
         (exited (Signalled.io s) = false ->
          conn_out (Signalled.io (Signalled.step E TOut s)) =
            conn_out (Signalled.io s) ++ [rd_data r]))) /\
  (fits Bufio.defaultBufSize (stdin_in E) ->
   let s := Buffered.startIO E sched (Buffered.entry E cfg) in
   BufferedInv.rechunk (firstn (Buffered.out_pos s) (stdin_in E)) =
     conn_out (Buffered.io s) ++ BufferedInv.pending s ++
     BufferedInv.chop bufSize (Bufio.rbuf (Buffered.stdinReader s)) /\
   (Buffered.out_pc s = Buffered.OutRead ->
    Bufio.wbuf (Buffered.writer s) = []) /\
   (forall n err,
       Buffered.out_pc s = Buffered.OutWrite n err ->
       exited (Buffered.io s) = false ->
       let s1 := Buffered.step E TMain s in
       let s2 := Buffered.step E TMain s1 in
       Buffered.out_pc s1 = Buffered.OutFlush err /\
       Bufio.wbuf (Buffered.writer s1) = firstn n (Buffered.out_buf s) /\
       conn_out (Buffered.io s1) = conn_out (Buffered.io s) /\
       conn_out (Buffered.io s2) =
         conn_out (Buffered.io s) ++ [firstn n (Buffered.out_buf s)] /\
       (Buffered.out_pc s2 = Buffered.OutExit \/
        Bufio.wbuf (Buffered.writer s2) = []))).
Proof.
  split.
  - intros Fs. exact (outbound_copy E cfg sched Fs).
  - intros Fs s.
    pose proof (buffered_out_startIO E Fs cfg sched) as (P & Q & W). fold s in P, Q, W.
    split; [exact Q|]. split.
    + intros Hpc. unfold BufferedInv.writer_ok in W. rewrite Hpc in W.
      apply W.
    + intros n err Hpc X s1 s2.
      unfold BufferedInv.writer_ok in W. rewrite Hpc in W.
      destruct W as (W1 & W2 & (Wn & Wb) & Wl).
      assert (L : (List.length (firstn n (Buffered.out_buf s)) <=?
                   Bufio.defaultBufSize - List.length (@nil Byte.byte))%nat
                  = true).
      { apply Nat.leb_le. rewrite length_firstn.
        unfold Bufio.defaultBufSize, bufSize in *. simpl. lia. }
      assert (E1 : s1 =
                   Buffered.with_out s (Buffered.OutFlush err)
                     (Buffered.out_pos s) (Buffered.out_buf s)
                     (Buffered.stdinReader s)
                     (Bufio.mkWriter (firstn n (Buffered.out_buf s)) None)
                     (Buffered.io s)).
      { unfold s1, Buffered.step. rewrite X.
        unfold Buffered.step_main. rewrite Hpc.
        unfold Bufio.Write, Bufio.Available. rewrite W2, W1, L.
        reflexivity. }
      assert (N : firstn n (Buffered.out_buf s) <> []).
      { intros H. apply (f_equal (@List.length _)) in H.
        rewrite length_firstn in H. simpl in H. lia. }
      rewrite E1.
      split; [reflexivity|]. split; [reflexivity|]. split; [reflexivity|].
      unfold s2. rewrite E1. unfold Buffered.step.
      cbn [Buffered.with_out Buffered.io]. rewrite X.
      unfold Buffered.step_main.
      cbn [Buffered.with_out Buffered.out_pc Buffered.writer Buffered.io].
      unfold Bufio.Flush. cbn [Bufio.werr Bufio.wbuf].
      destruct (firstn n (Buffered.out_buf s)) as [|b0 c0] eqn:Hc;
        [congruence|].
      unfold write_conn.
      destruct (if conn_closed (Buffered.io s) then Some ErrClosed
                else conn_res E (List.length (conn_out (Buffered.io s))))
        as [e|].
      * cbn. auto.
      * cbn. auto.
Qed.

(** ** Arguments *)

Lemma digit_is_digit (c : ascii) :
  is_digit c = false -> Strconv.digit c = None.
Proof.
  destruct c as [[] [] [] [] [] [] [] []]; vm_compute; congruence.
Qed.

Lemma digits_none (s : string) :
  all_digits s = false -> forall acc, Strconv.digits s acc = None.
Proof.
  induction s as [|c s IH]; simpl; [discriminate|].
  intros H acc. destruct (is_digit c) eqn:D.
  - simpl in H. destruct (Strconv.digit c); [now apply IH|reflexivity].
  - now rewrite (digit_is_digit c D).
Qed.

Lemma Atoi_not_integer (p : string) :
  is_integer p = false -> Strconv.Atoi p = inl (ErrSyntax p).
Proof.
  unfold is_integer, Strconv.Atoi. destruct p as [|c rest]; [reflexivity|].
  destruct (Ascii.eqb c "-" || Ascii.eqb c "+")%bool eqn:S.
  - destruct rest as [|c' rest']; [reflexivity|].
    simpl negb. rewrite andb_true_l. intros H.
    now rewrite (digits_none _ H).
  - intros H. now rewrite (digits_none _ H).
Qed.

Lemma parseArgs_parsed (E : Env) (argv : list string) (t : Z)
  (args : list string) :
  Flag.Parse E 10 argv = Flag.Parsed t args ->
  parseArgs E argv =
  match args with
  | [host; portStr] =>
      match Strconv.Atoi portStr with
      | inl err => Err (Wrapf "invalid port number" err)
      | inr port =>
          if (port <? 1) || (port >? 65535)
          then Err (Errorf "port must be between 1 and 65535")
          else Ok {| Host := host; Port := port; Timeout := t |}
      end
  | _ => Err (Errorf "expected exactly 2 positional arguments: <host> <port>")
  end.
Proof. intros H. unfold parseArgs. now rewrite H. Qed.

Lemma rejected_of_err (E : Env) (argv : list string) (e : error) :
  parseArgs E argv = Err e -> rejected E argv.
Proof.
  intros H. unfold rejected, Signalled.main, Buffered.main, Skeleton.main.
  rewrite H. simpl. repeat split; eauto.
Qed.

(** C8 -- Argument validation.  For every argument vector the flag
    parser lets through, with [args] the positional arguments left: any
    count but two, a port that is no integer, a port [strconv.Atoi]
    refuses, the ports ["0"] and ["70000"] and every parsed port outside
    [1, 65535] make [parseArgs] fail, the process end with status 1 and no
    dial happen, in the three revisions alike; every parsed port within
    [1, 65535], ["1"] and ["65535"] among them, gives the configuration with
    exactly this host, this port and the timeout of the flag. *)
Theorem argument_validation (E : Env) (argv : list string) (timeout : Z)
  (args : list string) :
  Flag.Parse E 10 argv = Flag.Parsed timeout args ->
  (List.length args <> 2%nat -> rejected E argv) /\
  (forall host p, args = [host; p] -> is_integer p = false ->
                  rejected E argv) /\
  (forall host p e, args = [host; p] -> Strconv.Atoi p = inl e ->
                    rejected E argv) /\
  (forall host p n, args = [host; p] -> Strconv.Atoi p = inr n ->
                    n < 1 \/ 65535 < n -> rejected E argv) /\
  (forall host, args = [host; "0"%string] -> rejected E argv) /\
  (forall host, args = [host; "70000"%string] -> rejected E argv) /\
  (forall host p n, args = [host; p] -> Strconv.Atoi p = inr n ->
                    1 <= n <= 65535 ->
                    parseArgs E argv =
                    Ok {| Host := host; Port := n; Timeout := timeout |}) /\
  (forall host, args = [host; "1"%string] ->
                parseArgs E argv =
                Ok {| Host := host; Port := 1; Timeout := timeout |}) /\
  (forall host, args = [host; "65535"%string] ->
                parseArgs E argv =
                Ok {| Host := host; Port := 65535; Timeout := timeout |}).
Proof.
  intros HP. pose proof (parseArgs_parsed E argv timeout args HP) as PA.
  assert (A : forall host p e, args = [host; p] -> Strconv.Atoi p = inl e ->
                               rejected E argv).
  { intros host p e -> H. rewrite H in PA. eapply rejected_of_err; eauto. }
  assert (B : forall host p n, args = [host; p] -> Strconv.Atoi p = inr n ->
                               n < 1 \/ 65535 < n -> rejected E argv).
  { intros host p n -> H R. rewrite H in PA.
    assert (X : (n <? 1) || (n >? 65535) = true).
    { apply orb_true_iff. destruct R; [left|right]; lia. }
    rewrite X in PA. eapply rejected_of_err; eauto. }
  assert (C : forall host p n, args = [host; p] -> Strconv.Atoi p = inr n ->
                    1 <= n <= 65535 ->
                    parseArgs E argv =
                    Ok {| Host := host; Port := n; Timeout := timeout |}).
  { intros host p n -> H R. rewrite H in PA.
    assert (X : (n <? 1) || (n >? 65535) = false).
    { apply orb_false_iff. split; lia. }
    now rewrite X in PA. }
  split.
  { intros L. destruct args as [|a [|b [|c rest]]];
      try (eapply rejected_of_err; eassumption).
    simpl in L. congruence. }
  split.
  { intros host p Ha Hi. eapply A; [eassumption|].
    now apply Atoi_not_integer. }
  split; [exact A|]. split; [exact B|].
  split.
  { intros host Ha. apply (B host "0"%string 0 Ha); [reflexivity|lia]. }
  split.
  { intros host Ha. apply (B host "70000"%string 70000 Ha); [reflexivity|lia]. }
  split; [exact C|].
  split.
  - intros host Ha. apply (C host "1"%string 1 Ha); [reflexivity|lia].
  - intros host Ha. apply (C host "65535"%string 65535 Ha); [reflexivity|lia].
Qed.

(** ** Exit status *)

Section BufferedStatus.
Import Buffered.

Variable E : Env.

Lemma write_conn_status (d : bytes) (p : process) :
  status (fst (write_conn E d p)) = status p.
Proof. reflexivity. Qed.





End BufferedStatus.


(** In the revision with a signal the process does not end before both
    [conn.Close()] calls, the one of [startIO] and the deferred one. *)
Lemma signalled_exit_closed (E : Env) (cfg : Config) (sched : list tid)
  (c : Z) :
  status (Signalled.io (Signalled.startIO E sched (Signalled.entry cfg)))
    = Some c ->
  closes (Signalled.io (Signalled.startIO E sched (Signalled.entry cfg)))
    = 2%nat.
Proof.
  pose proof (ctl_startIO E cfg sched) as (_ & _ & _ & M).
  unfold SignalledInv.main_ok in M. intros T.
  destruct (Signalled.main_pc _);
    (destruct M as (? & ? & T') || destruct M as (? & T'));
    try (rewrite T' in T; discriminate). assumption.
Qed.


(** ** The connect timeout *)

Lemma parse_without_flags (E : Env) (t : Z) (argv : list string) :
  Forall (fun a => Flag.classify a = Flag.NonFlag) argv ->
  Flag.Parse E t argv = Flag.Parsed t argv.
Proof.
  intros H. destruct argv as [|a argv]; [reflexivity|].
  inversion H as [|? ? Ha _]; subst. simpl. now rewrite Ha.
Qed.

Lemma parseArgs_timeout (E : Env) (argv : list string) (cfg : Config)
  (t : Z) (args : list string) :
  Flag.Parse E 10 argv = Flag.Parsed t args ->
  parseArgs E argv = Ok cfg -> Timeout cfg = t.
Proof.
  intros HP H. rewrite (parseArgs_parsed E argv t args HP) in H.
  destruct args as [|h [|p [|x rest]]]; try discriminate.
  destruct (Strconv.Atoi p); [discriminate|].
  destruct ((_ <? _) || _); [discriminate|].
  inversion H. reflexivity.
Qed.

Lemma wrap64_small (z : Z) :
  - 2 ^ 63 <= z < 2 ^ 63 -> wrap64 z = z.
Proof.
  intros H. unfold wrap64. rewrite Z.mod_small; lia.
Qed.

Lemma dialer_exact (cfg : Config) :
  0 <= Timeout cfg <= 9223372036 ->
  DialTimeout (dialer_of cfg) = Timeout cfg * Second.
Proof.
  intros H. unfold dialer_of, Second. cbn [DialTimeout].
  apply wrap64_small. lia.
Qed.

Section Blocked.
Import Signalled.

(** A goroutine in a [Read] that does not return stays there, whatever
    time passes: no step of its own moves it. *)
Lemma blocked_in (E : Env) (s : state) (k : nat) :
  panicked (sig s) = false ->
  pc (inb s) = AtRead ->
  read_conn E (io s) (pos (inb s)) = None ->
  run E (repeat TIn k) s = s.
Proof.
  intros Hp Hpc Hr. induction k as [|k IH]; [reflexivity|].
  simpl. assert (H : step E TIn s = s); [|now rewrite H].
  unfold step. destruct (exited (io s)); [reflexivity|].
  unfold step_in. rewrite Hpc, Hr. now apply crash_id.
Qed.

Lemma blocked_out (E : Env) (s : state) (k : nat) :
  panicked (sig s) = false ->
  pc (outb s) = AtRead ->
  read_stdin E (pos (outb s)) = None ->
  run E (repeat TOut k) s = s.
Proof.
  intros Hp Hpc Hr. induction k as [|k IH]; [reflexivity|].
  simpl. assert (H : step E TOut s = s); [|now rewrite H].
  unfold step. destruct (exited (io s)); [reflexivity|].
  unfold step_out. rewrite Hpc, Hr. now apply crash_id.
Qed.

End Blocked.

Section SignalledDials.
Import Signalled.

Lemma signalled_step_dials (E : Env) (t : tid) (s : state) :
  dials (io (step E t s)) = dials (io s).
Proof.
  unfold step. destruct (exited (io s)); [reflexivity|].
  destruct t.
  - unfold crash, step_in. destruct (pc (inb s)).
    + destruct (read_conn E (io s) (pos (inb s))) as [[r p']|].
      * destruct (read_into (buf (inb s)) r).
        now destruct (panicked _).
      * now destruct (panicked _).
    + cbn. now destruct (panicked _).
    + cbn. now destruct (panicked _).
    + now destruct (panicked _).
  - unfold crash, step_out. destruct (pc (outb s)).
    + destruct (read_stdin E (pos (outb s))) as [[r p']|].
      * destruct (read_into (buf (outb s)) r).
        now destruct (panicked _).
      * now destruct (panicked _).
    + cbn. now destruct (panicked _).
    + cbn. now destruct (panicked _).
    + now destruct (panicked _).
  - unfold step_main. destruct (main_pc s); try reflexivity.
    now destruct (done_closed (sig s)).
Qed.

Lemma signalled_run_dials (E : Env) (sched : list tid) (s : state) :
  dials (io (run E sched s)) = dials (io s).
Proof.
  revert s. induction sched as [|t sched IH]; intros s; simpl.
  - reflexivity.
  - rewrite IH. apply signalled_step_dials.
Qed.

End SignalledDials.

(** C9, as the code has it -- Connect timeout.  For a configuration
    [parseArgs] accepted: without a flag on the command line the timeout is
    10; a timeout of [t] seconds, [0 <= t <= 9223372036], reaches the dialer
    as exactly [t] seconds; it is the bound of the one dial [main] makes,
    except that [t = 0] is the dialer's zero value, under which the dial has
    no bound of its own; and after the dial nothing bounds a read: a
    goroutine whose [Read] does not return is still in it after any number
    of its turns. *)
Theorem connect_timeout_bounds_dial (E : Env) (argv : list string)
  (cfg : Config) (sched : list tid) :
  parseArgs E argv = Ok cfg ->
  (Forall (fun a => Flag.classify a = Flag.NonFlag) argv ->
   Timeout cfg = 10) /\
  (0 <= Timeout cfg <= 9223372036 ->
   DialTimeout (dialer_of cfg) = Timeout cfg * Second) /\
  (0 < Timeout cfg <= 9223372036 ->
   bound (dialer_of cfg) = Some (Timeout cfg * Second)) /\
  (Timeout cfg = 0 -> bound (dialer_of cfg) = None) /\
  dials (Signalled.main E argv sched) =
    [(address_of cfg, bound (dialer_of cfg))] /\
  (forall k,
      let s := Signalled.startIO E sched (Signalled.entry cfg) in
      (Signalled.pc (Signalled.inb s) = Signalled.AtRead ->
       read_conn E (Signalled.io s) (Signalled.pos (Signalled.inb s)) = None ->
       Signalled.run E (repeat TIn k) s = s) /\
      (Signalled.pc (Signalled.outb s) = Signalled.AtRead ->
       read_stdin E (Signalled.pos (Signalled.outb s)) = None ->
       Signalled.run E (repeat TOut k) s = s)).
Proof.
  intros HP.
  split.
  { intros F. eapply parseArgs_timeout; [|exact HP].
    now apply parse_without_flags. }
  split; [apply dialer_exact|].
  split.
  { intros H. unfold bound. rewrite dialer_exact by lia.
    unfold Second. destruct (_ =? 0) eqn:Z; [lia|reflexivity]. }
  split.
  { intros H. unfold bound, dialer_of. cbn [DialTimeout]. now rewrite H. }
  split.
  { unfold Signalled.main. rewrite HP.
    destruct (connect E cfg); [reflexivity|].
    unfold Signalled.startIO. now rewrite signalled_run_dials. }
  intros k s.
  pose proof (ctl_startIO E cfg sched) as ((P & _) & _). fold s in P.
  split; intros Hpc Hr.
  - now apply blocked_in.
  - now apply blocked_out.
Qed.

(** C9, as the specification has it, fails at [--timeout 0]: the dial is
    made with no bound at all, not under a minimal or default one. *)
Lemma zero_timeout_dials_unbounded :
  parseArgs quiet ["--timeout"; "0"; "example.com"; "80"]%string =
    Ok {| Host := "example.com"; Port := 80; Timeout := 0 |} /\
  dials (Signalled.main quiet
           ["--timeout"; "0"; "example.com"; "80"]%string []) =
    [("example.com:80"%string, None)] /\
  ~ (exists d, 0 < d /\
       bound (dialer_of {| Host := "example.com"; Port := 80; Timeout := 0 |})
       = Some d).
Proof.
  split; [reflexivity|]. split; [reflexivity|].
  intros (d & _ & H). discriminate H.
Qed.

(** ** The two older revisions at work *)

(** C6 at a failing input: the peer closes the connection, the goroutine of
    the revision on [bufio] reads the end of stream and calls [os.Exit(0)];
    the process has dialled and ends with no [conn.Close()] at all.  When
    standard input ends first the same revision does close, and on the
    first input the revision with a signal closes as well. *)
Lemma buffered_exit_skips_close :
  dials (Buffered.main remote_closes ["example.com"; "80"]%string [TIn; TIn])
    = [("example.com:80"%string, Some 10000000000)] /\
  status (Buffered.main remote_closes ["example.com"; "80"]%string [TIn; TIn])
    = Some 0 /\
  closes (Buffered.main remote_closes ["example.com"; "80"]%string [TIn; TIn])
    = 0%nat /\
  closes (Buffered.main echo ["example.com"; "80"]%string
            [TMain; TMain; TMain; TMain; TMain; TMain]) = 1%nat /\
  closes (Signalled.main remote_closes ["example.com"; "80"]%string
            [TIn; TIn; TMain; TMain; TMain]) = 2%nat.
Proof. vm_compute. repeat split. Qed.

(** C7 at a failing input: nothing comes from the peer, and the two older
    revisions have written the configuration line to standard output. *)
Lemma config_line_on_stdout :
  conn_in quiet = [] /\
  stdout (Buffered.main quiet ["example.com"; "80"]%string []) =
    [bytes_of ("Config: &{Host:example.com Port:80 Timeout:10}" ++ nl)%string] /\
  stdout (Skeleton.main quiet ["example.com"; "80"]%string) =
    [bytes_of ("Config: &{Host:example.com Port:80 Timeout:10}" ++ nl)%string] /\
  stdout (Signalled.main quiet ["example.com"; "80"]%string []) = [].
Proof. vm_compute. repeat split. Qed.

(** ** The theorems at work on the sample environments *)

Lemma echo_fits_conn : fits bufSize (conn_in echo).
Proof.
  unfold fits, echo, bufSize; cbn [conn_in].
  constructor; [vm_compute; lia|constructor].
Defined.

Lemma echo_fits_stdin : fits bufSize (stdin_in echo).
Proof.
  unfold fits, echo, bufSize; cbn [stdin_in].
  constructor; [vm_compute; lia|].
  constructor; [vm_compute; lia|constructor].
Defined.

Lemma echo_fits_stdin_bufio : fits Bufio.defaultBufSize (stdin_in echo).
Proof.
  unfold fits, echo, Bufio.defaultBufSize; cbn [stdin_in].
  constructor; [vm_compute; lia|].
  constructor; [vm_compute; lia|constructor].
Defined.

(** The peer's line, read with its end of stream, is on standard output
    after the two turns of the inbound goroutine. *)
Lemma inbound_fidelity_witness :
  fits bufSize (conn_in echo) /\
  stdout (Signalled.io
            (Signalled.startIO echo [TIn; TIn] (Signalled.entry example_cfg)))
  = [bytes_of "ping"].
Proof.
  split; [exact echo_fits_conn|].
  rewrite (proj1 (inbound_fidelity echo example_cfg [TIn; TIn] echo_fits_conn)).
  vm_compute. reflexivity.
Defined.

(** The user's line is on the connection, in both revisions, after the
    turns that read and write it; the writer of the older one is empty
    again. *)
Lemma outbound_transmission_witness :
  fits bufSize (stdin_in echo) /\
  fits Bufio.defaultBufSize (stdin_in echo) /\
  conn_out (Signalled.io
              (Signalled.startIO echo [TOut; TOut] (Signalled.entry example_cfg)))
  = [bytes_of "ping"] /\
  conn_out (Buffered.io
              (Buffered.startIO echo [TMain; TMain; TMain]
                 (Buffered.entry echo example_cfg)))
  = [bytes_of "ping"] /\
  Bufio.wbuf (Buffered.writer
                (Buffered.startIO echo [TMain; TMain; TMain]
                   (Buffered.entry echo example_cfg))) = [].
Proof.
  split; [exact echo_fits_stdin|]. split; [exact echo_fits_stdin_bufio|].
  destruct (outbound_transmission echo example_cfg [TOut; TOut]) as (S & _).
  destruct (outbound_transmission echo example_cfg [TMain; TMain; TMain])
    as (_ & B).
  split.
  - rewrite (proj1 (S echo_fits_stdin)). vm_compute. reflexivity.
  - destruct (B echo_fits_stdin_bufio) as (Q & W & _).
    split; [vm_compute; reflexivity|]. apply W. vm_compute. reflexivity.
Defined.

(** Both directions reach [closeDone] in the same run; the signal fired
    once and nothing panicked. *)
Lemma shutdown_signal_witness :
  Signalled.pc (Signalled.inb
    (Signalled.startIO echo [TIn; TIn; TOut; TOut; TOut; TIn; TOut]
       (Signalled.entry example_cfg))) = Signalled.Returned /\
  Signalled.pc (Signalled.outb
    (Signalled.startIO echo [TIn; TIn; TOut; TOut; TOut; TIn; TOut]
       (Signalled.entry example_cfg))) = Signalled.Returned /\
  Signalled.fired (Signalled.sig
    (Signalled.startIO echo [TIn; TIn; TOut; TOut; TOut; TIn; TOut]
       (Signalled.entry example_cfg))) = 1%nat /\
  Signalled.panicked (Signalled.sig
    (Signalled.startIO echo [TIn; TIn; TOut; TOut; TOut; TIn; TOut]
       (Signalled.entry example_cfg))) = false.
Proof.
  destruct shutdown_signal_idempotent as (_ & _ & _ & R).
  destruct (R echo example_cfg [TIn; TIn; TOut; TOut; TOut; TIn; TOut])
    as (P & _ & O & _).
  split; [vm_compute; reflexivity|]. split; [vm_compute; reflexivity|].
  split; [|exact P]. apply O. vm_compute. reflexivity.
Defined.



(** Ports 1 and 65535 pass, port 0 and a third argument do not. *)
Lemma argument_validation_witness :
  Flag.Parse quiet 10 ["example.com"; "1"]%string =
    Flag.Parsed 10 ["example.com"; "1"]%string /\
  parseArgs quiet ["example.com"; "1"]%string =
    Ok {| Host := "example.com"; Port := 1; Timeout := 10 |} /\
  parseArgs quiet ["--timeout"; "3"; "example.com"; "65535"]%string =
    Ok {| Host := "example.com"; Port := 65535; Timeout := 3 |} /\
  rejected quiet ["example.com"; "0"]%string /\
  rejected quiet ["example.com"; "http"]%string /\
  rejected quiet ["example.com"; "80"; "x"]%string.
Proof.
  split; [reflexivity|].
  split.
  { exact (proj1 (proj2 (proj2 (proj2 (proj2 (proj2 (proj2 (proj2
      (argument_validation quiet ["example.com"; "1"]%string 10
         ["example.com"; "1"]%string eq_refl))))))))
      "example.com"%string eq_refl). }
  split.
  { exact (proj2 (proj2 (proj2 (proj2 (proj2 (proj2 (proj2 (proj2
      (argument_validation quiet
         ["--timeout"; "3"; "example.com"; "65535"]%string 3
         ["example.com"; "65535"]%string eq_refl))))))))
      "example.com"%string eq_refl). }
  split.
  { exact (proj1 (proj2 (proj2 (proj2 (proj2
      (argument_validation quiet ["example.com"; "0"]%string 10
         ["example.com"; "0"]%string eq_refl)))))
      "example.com"%string eq_refl). }
  split.
  { exact (proj1 (proj2
      (argument_validation quiet ["example.com"; "http"]%string 10
         ["example.com"; "http"]%string eq_refl))
      "example.com"%string "http"%string eq_refl eq_refl). }
  { apply (proj1
      (argument_validation quiet ["example.com"; "80"; "x"]%string 10
         ["example.com"; "80"; "x"]%string eq_refl)).
    simpl. lia. }
Defined.

(** Ten seconds by default, and exactly ten seconds at the dial. *)
Lemma connect_timeout_witness :
  parseArgs quiet ["example.com"; "80"]%string = Ok example_cfg /\
  Timeout example_cfg = 10 /\
  DialTimeout (dialer_of example_cfg) = 10 * Second /\
  dials (Signalled.main quiet ["example.com"; "80"]%string []) =
    [("example.com:80"%string, Some 10000000000)] /\
  Signalled.run quiet (repeat TIn 5)
    (Signalled.startIO quiet [] (Signalled.entry example_cfg)) =
  Signalled.startIO quiet [] (Signalled.entry example_cfg).
Proof.
  assert (P : parseArgs quiet ["example.com"; "80"]%string = Ok example_cfg)
    by reflexivity.
  destruct (connect_timeout_bounds_dial quiet ["example.com"; "80"]%string
              example_cfg [] P) as (A & B & _ & _ & D & K).
  split; [exact P|].
  split.
  { apply A. repeat constructor. }
  split.
  { apply B. cbn. lia. }
  split; [exact D|].
  apply (proj1 (K 5%nat)); reflexivity.
Defined.

(** The peer's line arrives with the end of stream: it is written before
    the direction turns to [closeDone]. *)
Lemma trailing_data_witness :
  fits bufSize (conn_in echo) /\
  fits bufSize (stdin_in echo) /\
  Signalled.pc (Signalled.inb
    (Signalled.startIO echo [TIn; TIn] (Signalled.entry example_cfg)))
  = Signalled.AtCloseDone /\
  stdout (Signalled.io
    (Signalled.startIO echo [TIn; TIn] (Signalled.entry example_cfg)))
  = [bytes_of "ping"].
Proof.
  split; [exact echo_fits_conn|]. split; [exact echo_fits_stdin|].
  assert (C : Signalled.pc (Signalled.inb
    (Signalled.startIO echo [TIn; TIn] (Signalled.entry example_cfg)))
    = Signalled.AtCloseDone) by (vm_compute; reflexivity).
  split; [exact C|].
  rewrite (proj1 (trailing_data_not_lost echo example_cfg [TIn; TIn]
                    echo_fits_conn echo_fits_stdin) (or_introl C)).
  vm_compute. reflexivity.
Defined.

(** ** The revision with a signal on the two points the older ones miss *)

(** Standard output carries chunks of the peer's stream and nothing else,
    however the run goes. *)
Lemma signalled_stdout_is_remote (E : Env) (argv : list string)
  (sched : list tid) :
  fits bufSize (conn_in E) ->
  exists k,
    stdout (Signalled.main E argv sched) = chunks (firstn k (conn_in E)).
Proof.
  intros F. unfold Signalled.main.
  destruct (parseArgs E argv) as [cfg|e|c]; try (exists 0%nat; reflexivity).
  destruct (connect E cfg); [exists 0%nat; reflexivity|].
  eexists. pose proof (in_ok_startIO E cfg sched F) as (_ & _ & O & _).
  exact O.
Qed.

(** A process that dialled with success and has ended has closed the
    connection. *)
Lemma signalled_main_closes (E : Env) (argv : list string)
  (sched : list tid) (cfg : Config) (c : Z) :
  parseArgs E argv = Ok cfg ->
  connect E cfg = None ->
  status (Signalled.main E argv sched) = Some c ->
  closes (Signalled.main E argv sched) = 2%nat.
Proof.
  unfold Signalled.main. intros -> ->. apply signalled_exit_closed.
Qed.

(** * Further properties of the three revisions *)

(** ** parseArgs *)

(** X1 -- What [parseArgs] accepts.  A configuration comes only from exactly
    two positional arguments whose second one [strconv.Atoi] reads as the
    port, an integer within [1, 65535]; the host is the first one verbatim
    and the timeout is the value the flag parser ended with. *)
Theorem parseArgs_accepts_only_valid (E : Env) (argv : list string)
  (cfg : Config) :
  parseArgs E argv = Ok cfg ->
  exists p,
    Flag.Parse E 10 argv = Flag.Parsed (Timeout cfg) [Host cfg; p] /\
    Strconv.Atoi p = inr (Port cfg) /\
    is_integer p = true /\
    1 <= Port cfg <= 65535.
Proof.
  unfold parseArgs. intros H.
  destruct (Flag.Parse E 10 argv) as [t args| |]; try discriminate.
  destruct args as [|h [|p [|x rest]]]; try discriminate.
  destruct (Strconv.Atoi p) as [e|n] eqn:A; [discriminate|].
  destruct ((n <? 1) || (n >? 65535)) eqn:R; [discriminate|].
  inversion H; subst cfg; cbn [Host Port Timeout].
  exists p. split; [reflexivity|]. split; [exact A|].
  apply orb_false_iff in R. split; [|lia].
  destruct (is_integer p) eqn:I; [reflexivity|].
  rewrite (Atoi_not_integer p I) in A. discriminate.
Qed.

Lemma parseArgs_accepts_witness :
  parseArgs quiet ["--timeout=7"; "example.com"; "+8080"]%string =
    Ok {| Host := "example.com"; Port := 8080; Timeout := 7 |} /\
  exists p,
    Flag.Parse quiet 10 ["--timeout=7"; "example.com"; "+8080"]%string =
      Flag.Parsed 7 ["example.com"%string; p] /\
    Strconv.Atoi p = inr 8080 /\
    is_integer p = true /\
    1 <= 8080 <= 65535.
Proof.
  split; [reflexivity|].
  exact (parseArgs_accepts_only_valid quiet
           ["--timeout=7"; "example.com"; "+8080"]%string
           {| Host := "example.com"; Port := 8080; Timeout := 7 |} eq_refl).
Defined.

(** ** connect and the dial *)

Section Wire.

Variable E : Env.

(** The writer's calls reach the connection only: the dial log, the error
    stream, standard output and the close count stay as they are. *)
Lemma Flush_wire (b : Bufio.Writer) (p : process) :
  dials (snd (fst (Bufio.Flush E b p))) = dials p /\
  stderr (snd (fst (Bufio.Flush E b p))) = stderr p /\
  closes (snd (fst (Bufio.Flush E b p))) = closes p /\
  stdout (snd (fst (Bufio.Flush E b p))) = stdout p.
Proof.
  unfold Bufio.Flush. destruct (Bufio.werr b); [auto|].
  destruct (Bufio.wbuf b); [auto|].
  unfold write_conn.
  destruct (if conn_closed p then Some ErrClosed
            else conn_res E (List.length (conn_out p))); cbn; auto.
Qed.

Lemma Write_wire (b : Bufio.Writer) (d : bytes) (p : process) :
  dials (snd (fst (Bufio.Write E b d p))) = dials p /\
  stderr (snd (fst (Bufio.Write E b d p))) = stderr p /\
  closes (snd (fst (Bufio.Write E b d p))) = closes p /\
  stdout (snd (fst (Bufio.Write E b d p))) = stdout p.
Proof.
  unfold Bufio.Write. destruct (Bufio.werr b); [auto|].
  destruct (List.length d <=? Bufio.Available b)%nat; [auto|].
  destruct (List.length (Bufio.wbuf b) =? 0)%nat; [cbn; auto|].
  pose proof (Flush_wire
                {| Bufio.wbuf := Bufio.wbuf b ++ firstn (Bufio.Available b) d;
                   Bufio.werr := None |} p) as F.
  destruct (Bufio.Flush E _ p) as [[b1 p1] e1]. cbn [fst snd] in F.
  destruct e1; [exact F|].
  destruct (_ <=? _)%nat; [exact F|]. cbn. exact F.
Qed.



End Wire.



(** ** The revision with a signal: streams and closes *)

Section SignalledStreams.
Import Signalled SignalledInv.

Lemma signalled_step_stderr (E : Env) (t : tid) (s : state) :
  stderr (io (step E t s)) = stderr (io s).
Proof.
  unfold step. destruct (exited (io s)); [reflexivity|].
  destruct t.
  - unfold crash, step_in. destruct (pc (inb s)).
    + destruct (read_conn E (io s) (pos (inb s))) as [[r p']|].
      * destruct (read_into (buf (inb s)) r).
        now destruct (panicked _).
      * now destruct (panicked _).
    + cbn. now destruct (panicked _).
    + cbn. now destruct (panicked _).
    + now destruct (panicked _).
  - unfold crash, step_out. destruct (pc (outb s)).
    + destruct (read_stdin E (pos (outb s))) as [[r p']|].
      * destruct (read_into (buf (outb s)) r).
        now destruct (panicked _).
      * now destruct (panicked _).
    + cbn. now destruct (panicked _).
    + cbn. now destruct (panicked _).
    + now destruct (panicked _).
  - unfold step_main. destruct (main_pc s); try reflexivity.
    now destruct (done_closed (sig s)).
Qed.

Lemma signalled_run_stderr (E : Env) (sched : list tid) (s : state) :
  stderr (io (run E sched s)) = stderr (io s).
Proof.
  revert s. induction sched as [|t sched IH]; intros s; simpl.
  - reflexivity.
  - rewrite IH. apply signalled_step_stderr.
Qed.

End SignalledStreams.

(** X3 -- Streams of the revision with a signal.  Whatever the arguments,
    the environment and the schedule, [main] passes to standard output
    nothing but the non-empty chunks of a prefix of the reads of the
    connection, each in its own call and in order; the error stream gets
    nothing during a session, and exactly one diagnostic when the process
    ends before the relay starts. *)
Theorem signalled_streams (E : Env) (argv : list string) (sched : list tid) :
  fits bufSize (conn_in E) ->
  (exists k,
      (k <= List.length (conn_in E))%nat /\
      stdout (Signalled.main E argv sched) = chunks (firstn k (conn_in E))) /\
  match parseArgs E argv with
  | Ok cfg =>
      match connect E cfg with
      | Some e => stderr (Signalled.main E argv sched) = [DiagError e]
      | None => stderr (Signalled.main E argv sched) = []
      end
  | Err e => stderr (Signalled.main E argv sched) = [DiagError e]
  | Exit _ => stderr (Signalled.main E argv sched) = [DiagUsage]
  end.
Proof.
  intros F. unfold Signalled.main.
  destruct (parseArgs E argv) as [cfg|e|c];
    try (split; [exists 0%nat; split; [lia|reflexivity]|reflexivity]).
  destruct (connect E cfg);
    try (split; [exists 0%nat; split; [lia|reflexivity]|reflexivity]).
  split.
  - pose proof (in_ok_startIO E cfg sched F) as (P & _ & O & _).
    exists (SignalledInv.delivered
              (Signalled.inb (Signalled.startIO E sched (Signalled.entry cfg)))).
    split; [|exact O].
    unfold SignalledInv.delivered. destruct (Signalled.pc _); lia.
  - unfold Signalled.startIO. now rewrite signalled_run_stderr.
Qed.

Lemma signalled_streams_witness :
  fits bufSize (conn_in echo) /\
  stderr (Signalled.main echo ["example.com"; "80"]%string
            [TIn; TIn; TIn; TMain; TMain; TMain]) = [] /\
  exists k,
    (k <= List.length (conn_in echo))%nat /\
    stdout (Signalled.main echo ["example.com"; "80"]%string
              [TIn; TIn; TIn; TMain; TMain; TMain])
    = chunks (firstn k (conn_in echo)).
Proof.
  split; [exact echo_fits_conn|].
  destruct (signalled_streams echo ["example.com"; "80"]%string
              [TIn; TIn; TIn; TMain; TMain; TMain] echo_fits_conn) as (A & B).
  split; [exact B|exact A].
Defined.



(** ** The revision on bufio: who closes the connection *)

Section BufferedClosing.
Import Buffered BufferedClose.

Variable E : Env.

Lemma saw_EOF_mono (n m : nat) : (n <= m)%nat -> saw_EOF E n -> saw_EOF E m.
Proof.
  intros L (i & r & Hi & Hn & He). exists i, r. repeat split; auto. lia.
Qed.

Lemma after_out_close (e : option error) :
  after_out e = OutClose -> e = Some EOF.
Proof.
  unfold after_out. destruct e as [[]|]; simpl; congruence.
Qed.

Lemma after_out_carried (e : option error) : carried (after_out e) = None.
Proof.
  unfold after_out. destruct (is_EOF e); [reflexivity|].
  now destruct (is_err e).
Qed.

Lemma after_out_not_exit_closed (e : option error) :
  after_out e = OutExit \/ after_out e <> OutExit.
Proof. destruct (after_out e); auto; right; discriminate. Qed.

Lemma close_ok_intro (s : state) :
  closes (io s) = 0%nat ->
  carried (out_pc s) = None ->
  (forall e,
      Bufio.rerr (stdinReader s) = Some e ->
      exists r,
        nth_error (stdin_in E) (Nat.pred (out_pos s)) = Some r /\
        (0 < out_pos s)%nat /\ rd_err r = Some e) ->
  (out_pc s = OutClose -> saw_EOF E (out_pos s)) ->
  close_ok E s.
Proof.
  intros C K R S. unfold close_ok. repeat split; auto.
  intros [H|H]; [auto|congruence].
Qed.

Lemma close_ok_step_main (s : state) :
  close_ok E s -> close_ok E (step_main E s).
Proof.
  intros Hinv. pose proof Hinv as (C & K & R & S).
  unfold step_main.
  destruct (out_pc s) eqn:Hpc.
  - (* stdinReader.Read *)
    assert (C0 : closes (io s) = 0%nat).
    { destruct C as [C|[_ C]]; [exact C|discriminate]. }
    unfold Bufio.Read.
    destruct (Bufio.rbuf (stdinReader s)) as [|b rb] eqn:Hb.
    + destruct (Bufio.rerr (stdinReader s)) as [e|] eqn:He.
      * cbn [read_into rd_data rd_err List.length Nat.min firstn skipn app
             Nat.ltb Nat.leb].
        apply close_ok_intro; unfold with_out;
          cbn [out_pc out_pos out_buf stdinReader writer io Bufio.rerr].
        -- exact C0.
        -- apply after_out_carried.
        -- discriminate.
        -- intros H. apply after_out_close in H. inversion H; subst e.
           destruct (R EOF eq_refl) as (r & Hn & Hp & Hr).
           exists (Nat.pred (out_pos s)), r. repeat split; auto. lia.
      * unfold read_stdin.
        destruct (nth_error (stdin_in E) (out_pos s)) as [r|] eqn:Hn;
          [|exact Hinv].
        destruct (firstn Bufio.defaultBufSize (rd_data r)) as [|b d] eqn:Hd.
        -- cbn [read_into rd_data rd_err List.length Nat.min firstn skipn app
                Nat.ltb Nat.leb].
           apply close_ok_intro; unfold with_out;
             cbn [out_pc out_pos out_buf stdinReader writer io Bufio.rerr].
           ++ exact C0.
           ++ apply after_out_carried.
           ++ discriminate.
           ++ intros H. apply after_out_close in H.
              exists (out_pos s), r. repeat split; auto.
        -- destruct (read_into make_buf _) as [b' n] eqn:RI.
           cbn [rd_err].
           apply close_ok_intro; unfold with_out;
             cbn [out_pc out_pos out_buf stdinReader writer io Bufio.rerr
                  Nat.pred].
           ++ exact C0.
           ++ destruct (0 <? n)%nat; [reflexivity|apply after_out_carried].
           ++ intros e He'. exists r. repeat split; auto. lia.
           ++ destruct (0 <? n)%nat; [discriminate|].
              intros H. apply after_out_close in H. discriminate.
    + destruct (read_into make_buf _) as [b' n] eqn:RI.
      cbn [rd_err].
      apply close_ok_intro; unfold with_out;
        cbn [out_pc out_pos out_buf stdinReader writer io Bufio.rerr].
      * exact C0.
      * destruct (0 <? n)%nat; [reflexivity|apply after_out_carried].
      * exact R.
      * destruct (0 <? n)%nat; [discriminate|].
        intros H. apply after_out_close in H. discriminate.
  - (* writer.Write *)
    assert (C0 : closes (io s) = 0%nat).
    { destruct C as [C|[_ C]]; [exact C|discriminate]. }
    pose proof (Write_wire E (writer s) (firstn n (out_buf s)) (io s))
      as (_ & _ & W & _).
    destruct (Bufio.Write E _ _ _) as [[w' p'] e]. cbn [fst snd] in W.
    cbn [carried] in K.
    apply close_ok_intro; unfold with_out;
      cbn [out_pc out_pos out_buf stdinReader writer io].
    + congruence.
    + destruct (is_err e); [reflexivity|exact K].
    + exact R.
    + destruct (is_err e); discriminate.
  - (* writer.Flush *)
    assert (C0 : closes (io s) = 0%nat).
    { destruct C as [C|[_ C]]; [exact C|discriminate]. }
    pose proof (Flush_wire E (writer s) (io s)) as (_ & _ & W & _).
    destruct (Bufio.Flush E _ _) as [[w' p'] e]. cbn [fst snd] in W.
    cbn [carried] in K. subst err.
    apply close_ok_intro; unfold with_out;
      cbn [out_pc out_pos out_buf stdinReader writer io].
    + congruence.
    + destruct (is_err e); [reflexivity|apply after_out_carried].
    + exact R.
    + destruct (is_err e); [discriminate|].
      intros H. apply after_out_close in H. discriminate.
  - (* conn.Close *)
    assert (C0 : closes (io s) = 0%nat).
    { destruct C as [C|[_ C]]; [exact C|discriminate]. }
    unfold close_ok, with_out;
      cbn [out_pc out_pos out_buf stdinReader writer io close_conn closes
           carried].
    split; [right; split; [now rewrite C0|reflexivity]|].
    split; [reflexivity|]. split; [exact R|].
    intros _. apply S. now left.
  - (* os.Exit *)
    unfold close_ok, with_out;
      cbn [out_pc out_pos out_buf stdinReader writer io set_status closes
           carried].
    split; [destruct C as [C|[C _]]; auto|].
    split; [reflexivity|]. split; [exact R|].
    intros [H|H]; [discriminate|]. apply S. now right.
Qed.

Lemma buffered_step_in_closes (s : state) :
  closes (io (step_in E s)) = closes (io s).
Proof.
  unfold step_in. destruct (in_pc s); [|reflexivity..].
  destruct (Bufio.Read _ _ _ _) as [[[r' p'] r]|]; [|reflexivity].
  now destruct (read_into make_buf r).
Qed.

Lemma close_ok_step_in (s : state) : close_ok E s -> close_ok E (step_in E s).
Proof.
  destruct (buffered_step_in_out_frame E s) as (H1 & H2 & H3 & H4 & H5 & H6).
  unfold close_ok.
  now rewrite H1, H2, H4, buffered_step_in_closes.
Qed.

Lemma close_ok_step (t : tid) (s : state) :
  close_ok E s -> close_ok E (step E t s).
Proof.
  intros H. unfold step. destruct (exited (io s)); [exact H|].
  destruct t.
  - now apply close_ok_step_in.
  - exact H.
  - now apply close_ok_step_main.
Qed.

Lemma close_ok_run (sched : list tid) (s : state) :
  close_ok E s -> close_ok E (run E sched s).
Proof.
  revert s. induction sched as [|t sched IH]; intros s H; simpl.
  - exact H.
  - apply IH. now apply close_ok_step.
Qed.

Lemma close_ok_startIO (cfg : Config) (sched : list tid) :
  close_ok E (startIO E sched (entry E cfg)).
Proof.
  apply close_ok_run. apply close_ok_intro; cbn; auto; discriminate.
Qed.

End BufferedClosing.

(** X5 -- Closing in the revision on [bufio].  Whatever the arguments, the
    environment and the schedule, the process calls [conn.Close()] at most
    once, and only after a read of standard input returned [io.EOF]: on
    every other way out (the peer's end of stream, a read, write or flush
    error, a failed dial) the connection is never closed by the program,
    the deferred call of [main] included. *)
Theorem buffered_close_discipline (E : Env) (argv : list string)
  (sched : list tid) :
  (closes (Buffered.main E argv sched) <= 1)%nat /\
  (closes (Buffered.main E argv sched) = 1%nat ->
   exists i r,
     nth_error (stdin_in E) i = Some r /\ rd_err r = Some EOF).
Proof.
  unfold Buffered.main.
  destruct (parseArgs E argv) as [cfg|e|c];
    try (cbn; split; [lia|discriminate]).
  destruct (connect E cfg); [cbn; split; [lia|discriminate]|].
  pose proof (close_ok_startIO E cfg sched) as (C & _ & _ & S).
  split.
  - destruct C as [C|[C _]]; rewrite C; lia.
  - intros H. destruct (S (or_intror H)) as (i & r & _ & Hn & He).
    now exists i, r.
Qed.

Lemma buffered_close_witness :
  closes (Buffered.main echo ["example.com"; "80"]%string
            [TMain; TMain; TMain; TMain; TMain; TMain]) = 1%nat /\
  exists i r, nth_error (stdin_in echo) i = Some r /\ rd_err r = Some EOF.
Proof.
  assert (C : closes (Buffered.main echo ["example.com"; "80"]%string
                        [TMain; TMain; TMain; TMain; TMain; TMain]) = 1%nat)
    by (vm_compute; reflexivity).
  split; [exact C|].
  exact (proj2 (buffered_close_discipline echo ["example.com"; "80"]%string
                  [TMain; TMain; TMain; TMain; TMain; TMain]) C).
Defined.

(** ** The revision on bufio: the inbound goroutine *)

Section BufferedInbound.
Import Buffered BufferedInv BufferedIn.

Variable E : Env.
Variable pre : list bytes.
Hypothesis Fc : fits Bufio.defaultBufSize (conn_in E).

Lemma after_in_pending (e : option error) (s : state) (c : ipc) :
  c = after_in e ->
  match c with InWrite n _ => [firstn n (in_buf s)] | _ => [] end = [].
Proof. intros ->. unfold after_in. now destruct (is_err e). Qed.

Lemma in_ok_step_in_buffered (s : state) :
  in_ok E pre s -> in_ok E pre (step_in E s).
Proof.
  intros Hinv. pose proof Hinv as (P & W & HW & Q).
  unfold step_in.
  destruct (in_pc s) eqn:Hpc; unfold pending_in in Q; rewrite Hpc in Q.
  - (* reader.Read *)
    unfold Bufio.Read.
    destruct (Bufio.rbuf (reader s)) as [|b rb] eqn:Hb.
    + destruct (Bufio.rerr (reader s)) as [e|] eqn:He.
      * cbn [read_into rd_data rd_err List.length Nat.min firstn skipn app
             Nat.ltb Nat.leb].
        unfold in_ok, pending_in, with_in;
          cbn [in_pc in_pos in_buf reader io Bufio.rbuf].
        split; [exact P|]. exists W. split; [exact HW|].
        rewrite Q. unfold after_in. now destruct (is_err (Some e)).
      * unfold read_conn. destruct (conn_closed (io s)).
        -- (* the connection is closed: an error, nothing consumed *)
           cbn [rd_data]. rewrite firstn_nil.
           cbn [rd_data firstn read_into rd_err List.length Nat.min skipn app
                Nat.ltb Nat.leb].
           unfold in_ok, pending_in, with_in;
             cbn [in_pc in_pos in_buf reader io Bufio.rbuf].
           split; [exact P|]. exists W. split; [exact HW|].
           rewrite Q. reflexivity.
        -- destruct (nth_error (conn_in E) (in_pos s)) as [r|] eqn:Hn;
             [|exact Hinv].
           assert (Hp : (S (in_pos s) <= List.length (conn_in E))%nat).
           { apply nth_error_Some. congruence. }
           assert (Hf : firstn Bufio.defaultBufSize (rd_data r) = rd_data r).
           { apply firstn_all2. exact (fits_nth _ _ _ _ Fc Hn). }
           rewrite Hf.
           assert (R : rechunk (firstn (S (in_pos s)) (conn_in E)) =
                       W ++ chop bufSize (rd_data r)).
           { rewrite (firstn_snoc_nth _ _ _ _ Hn), rechunk_snoc, Q.
             cbn [app]. unfold chop at 1. cbn. now rewrite app_nil_r. }
           destruct (rd_data r) as [|b d] eqn:Hd.
           ++ cbn [read_into rd_data rd_err List.length Nat.min firstn skipn
                   app Nat.ltb Nat.leb].
              unfold in_ok, pending_in, with_in;
                cbn [in_pc in_pos in_buf reader io Bufio.rbuf].
              split; [exact Hp|]. exists W. split; [exact HW|].
              rewrite R. unfold after_in.
              now destruct (is_err (rd_err r)).
           ++ rewrite read_into_chunk.
              rewrite firstn_nonempty by discriminate.
              unfold in_ok, pending_in, with_in;
                cbn [in_pc in_pos in_buf reader io Bufio.rbuf].
              rewrite firstn_app_exact.
              split; [exact Hp|]. exists W. split; [exact HW|].
              rewrite R. rewrite chop_cons;
                [reflexivity|exact bufSize_pos|discriminate].
    + rewrite read_into_chunk.
      rewrite firstn_nonempty by discriminate.
      unfold in_ok, pending_in, with_in;
        cbn [in_pc in_pos in_buf reader io Bufio.rbuf].
      rewrite firstn_app_exact.
      split; [exact P|]. exists W. split; [exact HW|].
      rewrite Q. cbn [app]. rewrite (chop_cons bufSize (b :: rb));
        [reflexivity|exact bufSize_pos|discriminate].
  - (* os.Stdout.Write *)
    unfold write_stdout.
    unfold in_ok, pending_in, with_in;
      cbn [in_pc in_pos in_buf reader io Bufio.rbuf stdout].
    split; [exact P|]. exists (W ++ [firstn n (in_buf s)]).
    split; [rewrite HW; now rewrite app_assoc|].
    rewrite Q. rewrite <- !app_assoc. cbn [app].
    destruct (is_err (stdout_res E (List.length (stdout (io s)))));
      [reflexivity|].
    unfold after_in. now destruct (is_err err).
  - (* os.Exit *)
    unfold in_ok, pending_in, with_in;
      cbn [in_pc in_pos in_buf reader io Bufio.rbuf set_status stdout].
    split; [exact P|]. exists W. split; [exact HW|exact Q].
Qed.

(** The main goroutine touches nothing of the inbound side. *)
Lemma buffered_step_main_in_frame (s : state) :
  in_pc (step_main E s) = in_pc s /\
  in_pos (step_main E s) = in_pos s /\
  in_buf (step_main E s) = in_buf s /\
  reader (step_main E s) = reader s /\
  stdout (io (step_main E s)) = stdout (io s).
Proof.
  unfold step_main. destruct (out_pc s).
  - destruct (Bufio.Read _ _ _ _) as [[[r' p'] r]|]; [|repeat split].
    destruct (read_into make_buf r). repeat split.
  - pose proof (Write_wire E (writer s) (firstn n (out_buf s)) (io s))
      as (_ & _ & _ & W).
    destruct (Bufio.Write E _ _ _) as [[w' p'] e]. cbn in *. repeat split.
    exact W.
  - pose proof (Flush_wire E (writer s) (io s)) as (_ & _ & _ & W).
    destruct (Bufio.Flush E _ _) as [[w' p'] e]. cbn in *. repeat split.
    exact W.
  - repeat split.
  - repeat split.
Qed.

Lemma in_ok_step_main_buffered (s : state) :
  in_ok E pre s -> in_ok E pre (step_main E s).
Proof.
  destruct (buffered_step_main_in_frame s) as (H1 & H2 & H3 & H4 & H5).
  unfold in_ok, pending_in. now rewrite H1, H2, H3, H4, H5.
Qed.

Lemma in_ok_step_buffered (t : tid) (s : state) :
  in_ok E pre s -> in_ok E pre (step E t s).
Proof.
  intros H. unfold step. destruct (exited (io s)); [exact H|].
  destruct t.
  - now apply in_ok_step_in_buffered.
  - exact H.
  - now apply in_ok_step_main_buffered.
Qed.

Lemma in_ok_run_buffered (sched : list tid) (s : state) :
  in_ok E pre s -> in_ok E pre (run E sched s).
Proof.
  revert s. induction sched as [|t sched IH]; intros s H; simpl.
  - exact H.
  - apply IH. now apply in_ok_step_buffered.
Qed.

End BufferedInbound.

Lemma in_ok_startIO_buffered (E : Env) (cfg : Config) (sched : list tid) :
  fits Bufio.defaultBufSize (conn_in E) ->
  BufferedIn.in_ok E [bytes_of (show_config cfg)]
    (Buffered.startIO E sched (Buffered.entry E cfg)).
Proof.
  intros F. apply in_ok_run_buffered; [exact F|].
  split; [cbn; lia|]. exists []. split; reflexivity.
Qed.

(** X6 -- Inbound fidelity of the revision on [bufio].  Under every
    schedule standard output holds the configuration line and then, one
    call each and in order, the chunks [reader.Read] has handed out: every
    read of the connection cut into pieces of at most 1024 bytes, but for
    the piece being written and the pieces still in the reader's buffer;
    the piece being written is [buf[:n]] itself. *)
Theorem buffered_inbound_fidelity (E : Env) (cfg : Config)
  (sched : list tid) :
  fits Bufio.defaultBufSize (conn_in E) ->
  exists W,
    stdout (Buffered.io (Buffered.startIO E sched (Buffered.entry E cfg))) =
      bytes_of (show_config cfg) :: W /\
    BufferedInv.rechunk
      (firstn (Buffered.in_pos
                 (Buffered.startIO E sched (Buffered.entry E cfg)))
         (conn_in E)) =
      W ++ BufferedIn.pending_in
             (Buffered.startIO E sched (Buffered.entry E cfg))
        ++ BufferedInv.chop bufSize
             (Bufio.rbuf (Buffered.reader
                            (Buffered.startIO E sched (Buffered.entry E cfg)))).
Proof.
  intros F.
  destruct (in_ok_startIO_buffered E cfg sched F) as (_ & W & HW & Q).
  exists W. split; [exact HW|exact Q].
Qed.

Lemma echo_fits_conn_bufio : fits Bufio.defaultBufSize (conn_in echo).
Proof.
  unfold fits, echo, Bufio.defaultBufSize; cbn [conn_in].
  constructor; [vm_compute; lia|constructor].
Defined.

Lemma buffered_inbound_witness :
  fits Bufio.defaultBufSize (conn_in echo) /\
  exists W,
    stdout (Buffered.io
              (Buffered.startIO echo [TIn; TIn]
                 (Buffered.entry echo example_cfg))) =
      bytes_of (show_config example_cfg) :: W /\
    BufferedInv.rechunk
      (firstn (Buffered.in_pos
                 (Buffered.startIO echo [TIn; TIn]
                    (Buffered.entry echo example_cfg)))
         (conn_in echo)) =
      W ++ BufferedIn.pending_in
             (Buffered.startIO echo [TIn; TIn]
                (Buffered.entry echo example_cfg))
        ++ BufferedInv.chop bufSize
             (Bufio.rbuf (Buffered.reader
                            (Buffered.startIO echo [TIn; TIn]
                               (Buffered.entry echo example_cfg)))).
Proof.
  split; [exact echo_fits_conn_bufio|].
  exact (buffered_inbound_fidelity echo example_cfg [TIn; TIn]
           echo_fits_conn_bufio).
Defined.

(** ** The revision on bufio: no byte is lost *)

Section Bytes.
Import BufferedInv.

Lemma concat_chop_fuel (n : nat) :
  forall f l, (List.length l <= f)%nat ->
  List.concat (chop_fuel f n l) = l \/ n = 0%nat.
Proof.
  destruct n as [|n]; [auto|].
  induction f as [|f IH]; intros l Hl.
  - left. destruct l; [reflexivity|simpl in Hl; lia].
  - destruct l as [|a l]; [now left|].
    left. cbn [chop_fuel List.concat].
    assert (L : (List.length (skipn (S n) (a :: l)) <= f)%nat).
    { rewrite length_skipn. cbn [List.length] in *. lia. }
    destruct (IH _ L) as [H|H]; [|discriminate].
    rewrite H. apply firstn_skipn.
Qed.

Lemma concat_chop (l : bytes) : List.concat (chop bufSize l) = l.
Proof.
  unfold chop.
  destruct (concat_chop_fuel bufSize (List.length l) l (Nat.le_refl _))
    as [H|H]; [exact H|discriminate].
Qed.

Lemma concat_rechunk (l : list rd) :
  List.concat (rechunk l) = List.concat (map rd_data l).
Proof.
  unfold rechunk. induction l as [|r l IH]; [reflexivity|].
  cbn [flat_map map List.concat]. rewrite concat_app, concat_chop.
  now rewrite IH.
Qed.

End Bytes.

(** X7 -- No byte is lost in the revision on [bufio].  Under every
    schedule, in each direction, the bytes written so far, then the chunk
    in hand, then the bytes still in the reader's buffer are exactly the
    bytes read from the source so far, in their order: the re-cutting of
    the reads into chunks drops, repeats and moves nothing. *)
Theorem buffered_no_byte_lost (E : Env) (cfg : Config) (sched : list tid) :
  fits Bufio.defaultBufSize (conn_in E) ->
  fits Bufio.defaultBufSize (stdin_in E) ->
  List.concat
    (conn_out (Buffered.io (Buffered.startIO E sched (Buffered.entry E cfg))))
  ++ List.concat
       (BufferedInv.pending (Buffered.startIO E sched (Buffered.entry E cfg)))
  ++ Bufio.rbuf
       (Buffered.stdinReader
          (Buffered.startIO E sched (Buffered.entry E cfg)))
  = List.concat
      (map rd_data
         (firstn (Buffered.out_pos
                    (Buffered.startIO E sched (Buffered.entry E cfg)))
            (stdin_in E))) /\
  List.concat
    (tl (stdout (Buffered.io
                   (Buffered.startIO E sched (Buffered.entry E cfg)))))
  ++ List.concat
       (BufferedIn.pending_in
          (Buffered.startIO E sched (Buffered.entry E cfg)))
  ++ Bufio.rbuf
       (Buffered.reader (Buffered.startIO E sched (Buffered.entry E cfg)))
  = List.concat
      (map rd_data
         (firstn (Buffered.in_pos
                    (Buffered.startIO E sched (Buffered.entry E cfg)))
            (conn_in E))).
Proof.
  intros Fc Fs. split.
  - pose proof (buffered_out_startIO E Fs cfg sched) as (_ & Q & _).
    rewrite <- concat_rechunk, Q, !concat_app, concat_chop. reflexivity.
  - destruct (in_ok_startIO_buffered E cfg sched Fc) as (_ & W & HW & Q).
    rewrite HW. cbn [app tl].
    rewrite <- concat_rechunk, Q, !concat_app, concat_chop. reflexivity.
Qed.

Lemma buffered_no_byte_lost_witness :
  fits Bufio.defaultBufSize (conn_in echo) /\
  fits Bufio.defaultBufSize (stdin_in echo) /\
  List.concat
    (conn_out (Buffered.io
                 (Buffered.startIO echo [TMain; TMain; TMain]
                    (Buffered.entry echo example_cfg))))
  = bytes_of "ping".
Proof.
  split; [exact echo_fits_conn_bufio|]. split; [exact echo_fits_stdin_bufio|].
  pose proof (proj1 (buffered_no_byte_lost echo example_cfg
                       [TMain; TMain; TMain]
                       echo_fits_conn_bufio echo_fits_stdin_bufio)) as H.
  vm_compute in H. vm_compute. exact H.
Defined.

(** ** The revision with a signal: an error ends the session *)

Section SignalledLiveness.
Import Signalled SignalledInv SignalledLive.

Variable E : Env.


Lemma stage_le_4 (next : option (rd * nat)) (d : dir) :
  (stage next d <= 4)%nat.
Proof.
  unfold stage. destruct (pc d); try lia.
  - destruct next as [[r p]|]; [destruct (is_err _)|]; lia.
  - destruct (is_err _); lia.
Qed.





Lemma step_in_closes (s : state) :
  closes (io (step_in E s)) = closes (io s).
Proof.
  unfold step_in. destruct (pc (inb s)); auto.
  destruct (read_conn E (io s) (pos (inb s))) as [[r p']|]; auto.
Qed.











End SignalledLiveness.



(** ** The revision with a signal: errors are final *)

Section SignalledFinal.
Import Signalled SignalledTerminal.

Variable l : list rd.
Variable res : nat -> option error.

(** The three moves of a direction, on the two records. *)

Lemma reads_end_read (d : dir) (r : rd) (q : gpc) (b : bytes) :
  reads_end l d ->
  pc d = AtRead ->
  nth_error l (pos d) = Some r ->
  (live {| pc := q; pos := S (pos d); buf := b |} = true ->
   is_err (rd_err r) = false) ->
  reads_end l {| pc := q; pos := S (pos d); buf := b |}.
Proof.
  intros H Hpc Hn Hq i r' Hi He.
  destruct (H i r' Hi He) as (_ & L).
  assert (P : (pos d <= i)%nat) by (apply L; unfold live; now rewrite Hpc).
  cbn [pos]. split; [lia|].
  intros Lq. specialize (Hq Lq).
  assert (i <> pos d); [|lia].
  intros ->. rewrite Hn in Hi. inversion Hi; subst. congruence.
Qed.

Lemma reads_end_stop (d : dir) (q : gpc) :
  reads_end l d ->
  (live {| pc := q; pos := pos d; buf := buf d |} = true -> live d = true) ->
  reads_end l {| pc := q; pos := pos d; buf := buf d |}.
Proof.
  intros H Hq i r Hi He. destruct (H i r Hi He) as (A & B).
  cbn [pos]. split; [exact A|]. intros Lq. apply B. now apply Hq.
Qed.

Lemma writes_end_keep (d d' : dir) (out : list bytes) :
  writes_end res d out ->
  (writing d' = true -> writing d = true) ->
  writes_end res d' out.
Proof.
  intros H Hq i He. destruct (H i He) as (A & B).
  split; [exact A|]. intros W. apply B. now apply Hq.
Qed.

Lemma writes_end_write (d d' : dir) (out : list bytes) (x : bytes) :
  writes_end res d out ->
  writing d = true ->
  (writing d' = true -> is_err (res (List.length out)) = false) ->
  writes_end res d' (out ++ [x]).
Proof.
  intros H W Hq i He. destruct (H i He) as (_ & B).
  specialize (B W). rewrite length_app. cbn [List.length].
  split; [lia|]. intros W'. specialize (Hq W').
  assert (i <> List.length out); [|lia].
  intros ->. congruence.
Qed.

End SignalledFinal.

Section SignalledFinalSteps.
Import Signalled SignalledTerminal.

Variable E : Env.

Lemma live_after_in (e : option error) (n : nat) (b : bytes) :
  live {| pc := after_in e; pos := n; buf := b |} = true -> is_err e = false.
Proof. unfold live, after_in. cbn [pc]. now destruct (is_err e). Qed.

Lemma live_after_out (e : option error) (n : nat) (b : bytes) :
  live {| pc := after_out e; pos := n; buf := b |} = true -> is_err e = false.
Proof.
  unfold live, after_out. cbn [pc].
  destruct (is_EOF e); [discriminate|]. now destruct (is_err e).
Qed.

Lemma writing_after_in (e : option error) (n : nat) (b : bytes) :
  writing {| pc := after_in e; pos := n; buf := b |} = true ->
  is_err e = false.
Proof. unfold writing, after_in. cbn [pc]. now destruct (is_err e). Qed.

Lemma writing_after_out (e : option error) (n : nat) (b : bytes) :
  writing {| pc := after_out e; pos := n; buf := b |} = true ->
  is_err e = false.
Proof.
  unfold writing, after_out. cbn [pc].
  destruct (is_EOF e); [discriminate|]. now destruct (is_err e).
Qed.

Lemma terminal_step_in (s : state) : terminal E s -> terminal E (step_in E s).
Proof.
  intros Hinv. pose proof Hinv as (R & W & RO & WO).
  unfold step_in.
  destruct (pc (inb s)) eqn:Hpc.
  - unfold read_conn. destruct (conn_closed (io s)).
    + (* closed: an error, nothing consumed *)
      cbn [read_into rd_data rd_err List.length Nat.min firstn skipn app
           Nat.ltb Nat.leb after_in is_err].
      split; [|split; [|split]]; cbn [inb outb io]; auto.
      * apply (reads_end_stop (conn_in E) (inb s) AtCloseDone R).
        discriminate.
      * apply (writes_end_keep (stdout_res E) (inb s) _ _ W). discriminate.
    + destruct (nth_error (conn_in E) (pos (inb s))) as [r|] eqn:Hn;
        [|exact Hinv].
      destruct (read_into (buf (inb s)) r) as [b' n].
      split; [|split; [|split]]; cbn [inb outb io]; auto.
      * apply (reads_end_read (conn_in E) (inb s) r _ _ R Hpc Hn).
        destruct (0 <? n)%nat.
        -- unfold live. cbn [pc]. now destruct (is_err (rd_err r)).
        -- apply live_after_in.
      * apply (writes_end_keep (stdout_res E) (inb s) _ _ W).
        intros _. unfold writing. now rewrite Hpc.
  - unfold write_stdout.
    split; [|split; [|split]]; cbn [inb outb io stdout conn_out]; auto.
    + apply (reads_end_stop (conn_in E) (inb s) _ R).
      destruct (is_err (stdout_res E _)); [discriminate|].
      intros L. apply live_after_in in L. unfold live. now rewrite Hpc, L.
    + apply (writes_end_write (stdout_res E) (inb s) _ _ _ W).
      * unfold writing. now rewrite Hpc.
      * destruct (is_err (stdout_res E _)); [discriminate|reflexivity].
  - split; [|split; [|split]]; cbn [inb outb io]; auto.
    + apply (reads_end_stop (conn_in E) (inb s) Returned R). discriminate.
    + apply (writes_end_keep (stdout_res E) (inb s) _ _ W). discriminate.
  - exact Hinv.
Qed.

Lemma terminal_step_out (s : state) :
  terminal E s -> terminal E (step_out E s).
Proof.
  intros Hinv. pose proof Hinv as (R & W & RO & WO).
  unfold step_out.
  destruct (pc (outb s)) eqn:Hpc.
  - unfold read_stdin.
    destruct (nth_error (stdin_in E) (pos (outb s))) as [r|] eqn:Hn;
      [|exact Hinv].
    destruct (read_into (buf (outb s)) r) as [b' n].
    split; [|split; [|split]]; cbn [inb outb io]; auto.
    + apply (reads_end_read (stdin_in E) (outb s) r _ _ RO Hpc Hn).
      destruct (0 <? n)%nat.
      * unfold live. cbn [pc]. now destruct (is_err (rd_err r)).
      * apply live_after_out.
    + apply (writes_end_keep (conn_res E) (outb s) _ _ WO).
      intros _. unfold writing. now rewrite Hpc.
  - unfold write_conn.
    split; [|split; [|split]]; cbn [inb outb io stdout conn_out]; auto.
    + apply (reads_end_stop (stdin_in E) (outb s) _ RO).
      destruct (is_err (if conn_closed (io s) then _ else _));
        [discriminate|].
      intros L. apply live_after_out in L. unfold live. now rewrite Hpc, L.
    + apply (writes_end_write (conn_res E) (outb s) _ _ _ WO).
      * unfold writing. now rewrite Hpc.
      * destruct (conn_closed (io s)); [discriminate|].
        destruct (is_err (conn_res E _)); [discriminate|reflexivity].
  - split; [|split; [|split]]; cbn [inb outb io]; auto.
    + apply (reads_end_stop (stdin_in E) (outb s) Returned RO). discriminate.
    + apply (writes_end_keep (conn_res E) (outb s) _ _ WO). discriminate.
  - exact Hinv.
Qed.

Lemma terminal_step_main (s : state) :
  terminal E s -> terminal E (step_main s).
Proof.
  intros H. unfold terminal.
  destruct (step_main_frame s) as (-> & -> & _ & -> & ->). exact H.
Qed.

Lemma terminal_crash (s : state) : terminal E s -> terminal E (crash s).
Proof.
  intros H. unfold terminal.
  destruct (crash_frame s) as (-> & -> & _ & _ & -> & -> & _). exact H.
Qed.

Lemma terminal_step (t : tid) (s : state) :
  terminal E s -> terminal E (step E t s).
Proof.
  intros H. unfold step. destruct (exited (io s)); [exact H|].
  destruct t.
  - now apply terminal_crash, terminal_step_in.
  - now apply terminal_crash, terminal_step_out.
  - now apply terminal_step_main.
Qed.

Lemma terminal_run (sched : list tid) (s : state) :
  terminal E s -> terminal E (run E sched s).
Proof.
  revert s. induction sched as [|t sched IH]; intros s H; simpl.
  - exact H.
  - apply IH. now apply terminal_step.
Qed.

Lemma terminal_startIO (cfg : Config) (sched : list tid) :
  terminal E (startIO E sched (entry cfg)).
Proof.
  apply terminal_run.
  split; [|split; [|split]]; intros i; intros; cbn; split; intros; lia.
Qed.

End SignalledFinalSteps.

(** X9 -- Errors are final in the revision with a signal.  Under every
    schedule, in each direction: when the [i]-th [Read] of the source
    returned an error, the direction has called [Read] at most [i + 1]
    times; when the [i]-th [Write] to the destination failed, the direction
    has called [Write] at most [i + 1] times, and after that call it stands
    at [closeDone] or has returned: nothing is retried. *)
Theorem errors_are_final (E : Env) (cfg : Config) (sched : list tid) :
  (forall i r,
      nth_error (conn_in E) i = Some r -> is_err (rd_err r) = true ->
      (Signalled.pos (Signalled.inb
         (Signalled.startIO E sched (Signalled.entry cfg))) <= S i)%nat) /\
  (forall i,
      is_err (stdout_res E i) = true ->
      (List.length (stdout (Signalled.io
         (Signalled.startIO E sched (Signalled.entry cfg)))) <= S i)%nat /\
      (List.length (stdout (Signalled.io
         (Signalled.startIO E sched (Signalled.entry cfg)))) = S i ->
       SignalledTerminal.writing (Signalled.inb
         (Signalled.startIO E sched (Signalled.entry cfg))) = false)) /\
  (forall i r,
      nth_error (stdin_in E) i = Some r -> is_err (rd_err r) = true ->
      (Signalled.pos (Signalled.outb
         (Signalled.startIO E sched (Signalled.entry cfg))) <= S i)%nat) /\
  (forall i,
      is_err (conn_res E i) = true ->
      (List.length (conn_out (Signalled.io
         (Signalled.startIO E sched (Signalled.entry cfg)))) <= S i)%nat /\
      (List.length (conn_out (Signalled.io
         (Signalled.startIO E sched (Signalled.entry cfg)))) = S i ->
       SignalledTerminal.writing (Signalled.outb
         (Signalled.startIO E sched (Signalled.entry cfg))) = false)).
Proof.
  pose proof (terminal_startIO E cfg sched) as (R & W & RO & WO).
  split; [|split; [|split]].
  - intros i r Hn He. apply (R i r Hn He).
  - intros i He. destruct (W i He) as (A & B). split; [exact A|].
    intros L. destruct (SignalledTerminal.writing _); [|reflexivity].
    specialize (B eq_refl). lia.
  - intros i r Hn He. apply (RO i r Hn He).
  - intros i He. destruct (WO i He) as (A & B). split; [exact A|].
    intros L. destruct (SignalledTerminal.writing _); [|reflexivity].
    specialize (B eq_refl). lia.
Qed.

Lemma errors_are_final_witness :
  is_err (stdout_res broken_pipe 0) = true /\
  stdout (Signalled.io
            (Signalled.startIO broken_pipe [TIn; TIn; TIn; TIn; TIn; TIn]
               (Signalled.entry example_cfg))) = [bytes_of "one"] /\
  (List.length
     (stdout (Signalled.io
                (Signalled.startIO broken_pipe [TIn; TIn; TIn; TIn; TIn; TIn]
                   (Signalled.entry example_cfg)))) <= 1)%nat.
Proof.
  split; [reflexivity|]. split; [vm_compute; reflexivity|].
  exact (proj1 (proj1 (proj2 (errors_are_final broken_pipe example_cfg
                                [TIn; TIn; TIn; TIn; TIn; TIn]))
                  0%nat eq_refl)).
Defined.

(** ** The timeout is taken as it comes *)

Lemma wrap64_multiple (k : Z) : wrap64 (k * 2 ^ 64) = 0.
Proof.
  unfold wrap64. rewrite Z.add_comm, Z_mod_plus_full.
  rewrite Z.mod_small; lia.
Qed.

(** X10 -- The timeout is not validated.  Whatever integer the flag
    [-timeout] yields, negative ones included, [parseArgs] accepts it
    unchanged beside a valid host and port; a value of at most 9223372036
    in absolute value reaches the dialer as that many seconds, so a
    negative one gives a negative duration; and a multiple of [2^55] wraps
    to the zero duration, under which the dial has no bound. *)
Theorem timeout_is_unchecked (E : Env) (v h p : string) (t n : Z) :
  intSyntax E v = Some t ->
  Flag.classify h = Flag.NonFlag ->
  Strconv.Atoi p = inr n ->
  1 <= n <= 65535 ->
  parseArgs E ["--timeout"%string; v; h; p] =
    Ok {| Host := h; Port := n; Timeout := t |} /\
  (- 9223372036 <= t <= 9223372036 ->
   DialTimeout (dialer_of {| Host := h; Port := n; Timeout := t |})
   = t * Second) /\
  (forall k, t = k * 2 ^ 55 ->
   bound (dialer_of {| Host := h; Port := n; Timeout := t |}) = None).
Proof.
  intros Hv Hh Hp Hn.
  split; [|split].
  - unfold parseArgs.
    assert (P : Flag.Parse E 10 ["--timeout"%string; v; h; p] =
                Flag.Parsed t [h; p]).
    { cbn [Flag.Parse].
      change (Flag.classify "--timeout") with (Flag.Named "timeout" None).
      cbn. rewrite Hv, Hh. reflexivity. }
    rewrite P, Hp.
    assert (X : (n <? 1) || (n >? 65535) = false).
    { apply orb_false_iff. split; lia. }
    now rewrite X.
  - intros R. unfold dialer_of, Second. cbn [DialTimeout Timeout].
    apply wrap64_small. lia.
  - intros k ->. unfold bound, dialer_of, Second. cbn [DialTimeout Timeout].
    replace (k * 2 ^ 55 * 1000000000) with ((k * 1953125) * 2 ^ 64) by lia.
    now rewrite wrap64_multiple.
Qed.

Lemma timeout_is_unchecked_witness :
  parseArgs quiet ["--timeout"; "-5"; "example.com"; "80"]%string =
    Ok {| Host := "example.com"; Port := 80; Timeout := -5 |} /\
  DialTimeout
    (dialer_of {| Host := "example.com"; Port := 80; Timeout := -5 |})
  = -5 * Second.
Proof.
  destruct (timeout_is_unchecked quiet "-5" "example.com" "80" (-5) 80
              eq_refl eq_refl eq_refl) as (A & B & _); [lia|].
  split; [exact A|]. apply B. lia.
Defined.

(** ** The revision on bufio: an error ends the process *)

Section BufferedLiveness.
Import Buffered BufferedLive.

Variable E : Env.














End BufferedLiveness.


